(** * proscore: the scoring endpoint's rate limiter, feedback parsing and
      the browser-side history.

    The development embeds the logic of the route handler of
    [POST /api/score] ([getRateLimitKey], [checkRateLimit], the expiry sweep
    and [parseTextToArray]) and of [src/app/page.tsx] (the [localStorage]
    helpers) and proves the properties the specification states about them. *)

From Stdlib Require Import ZArith NArith Lia String Ascii DecimalString.
From stdpp Require Import gmap list fin_maps.

Local Open Scope Z_scope.

(** ** JavaScript strings

    A JavaScript string is a sequence of UTF-16 code units.  Header values,
    model output and storage contents are all such sequences. *)

Module JS.

Definition jsstring := list N.

#[global] Instance jsstring_eq_dec : EqDecision jsstring :=
  list_eq_dec (A := N).
#[global] Instance jsstring_countable : Countable jsstring :=
  list_countable (A := N).

(** The code units of an ASCII literal. *)
Definition str (s : string) : jsstring :=
  List.map N_of_ascii (list_ascii_of_string s).

(** Truthiness of a string: only the empty string is falsy. *)
Definition truthy (s : jsstring) : bool :=
  match s with [] => false | _ :: _ => true end.

(** Truthiness of a [string | null]. *)
Definition truthy_opt (o : option jsstring) : bool :=
  match o with None => false | Some s => truthy s end.

(** ECMAScript WhiteSpace and LineTerminator code points; this is the set
    [String.prototype.trim] strips and the set [\s] matches. *)
Definition is_space (c : N) : bool :=
  ((9 <=? c) && (c <=? 13))%N
  || (c =? 32)%N || (c =? 160)%N || (c =? 5760)%N
  || ((8192 <=? c) && (c <=? 8202))%N
  || (c =? 8232)%N || (c =? 8233)%N || (c =? 8239)%N
  || (c =? 8287)%N || (c =? 12288)%N || (c =? 65279)%N.

(** [\d] *)
Definition is_digit (c : N) : bool := ((48 <=? c) && (c <=? 57))%N.

Fixpoint trimStart (s : jsstring) : jsstring :=
  match s with
  | c :: s' => if is_space c then trimStart s' else s
  | [] => []
  end.

Definition trimEnd (s : jsstring) : jsstring := rev (trimStart (rev s)).

(** [s.trim()] *)
Definition trim (s : jsstring) : jsstring := trimEnd (trimStart s).

(** [s.split(sep)] for a separator of one code unit: the pieces between
    the occurrences of [sep]; a string without [sep] (the empty one too) is
    its own single piece. *)
Fixpoint split (sep : N) (s : jsstring) : list jsstring :=
  match s with
  | [] => [[]]
  | c :: s' =>
      if (c =? sep)%N then [] :: split sep s'
      else match split sep s' with
           | piece :: pieces => (c :: piece) :: pieces
           | [] => [[c]]
           end
  end.

Definition comma : N := 44.
Definition newline : N := 10.

End JS.

Import JS.

(** ** The rate limiter of the route handler *)

Module RateLimit.

(** Requests per window, and the window in milliseconds. *)
Definition RATE_LIMIT : Z := 10.
Definition RATE_LIMIT_WINDOW : Z := 1000.

(** A value of [rateLimitStore]: [{ count, resetTime }]. *)
Record entry := Entry { count : Z; resetTime : Z }.

(** [rateLimitStore], a [Map] from client identity to its entry. *)
Abbreviation store := (gmap jsstring entry).

(** What [checkRateLimit] returns.  The source types [resetTime] and
    [remaining] as optional, yet every return statement sets both. *)
Record result := Result { allowed : bool; res_resetTime : Z; remaining : Z }.

(** [checkRateLimit(key)], with the clock reading [now = Date.now()] and the
    store made explicit.  The third branch increments the entry that the
    map holds (the [set] that follows the [count++] rebinds the same
    object). *)
Definition checkRateLimit (now : Z) (key : jsstring) (s : store)
  : result * store :=
  let windowEnd := now + RATE_LIMIT_WINDOW in
  match s !! key with
  | None =>
      (Result true windowEnd (RATE_LIMIT - 1),
       <[key := Entry 1 windowEnd]> s)
  | Some current =>
      if now >? resetTime current then
        (Result true windowEnd (RATE_LIMIT - 1),
         <[key := Entry 1 windowEnd]> s)
      else if count current >=? RATE_LIMIT then
        (Result false (resetTime current) 0, s)
      else
        let current' := Entry (count current + 1) (resetTime current) in
        (Result true (resetTime current') (RATE_LIMIT - count current'),
         <[key := current']> s)
  end.

(** The body of the [setInterval] callback: walk the entries and delete
    each one whose window has passed. *)
Definition sweep (now : Z) (s : store) : store :=
  map_fold (fun key value acc =>
              if now >? resetTime value then delete key acc else acc)
           s s.

(** A request as the limiter sees it: the identity and the clock reading. *)
Definition call : Type := jsstring * Z.

(** Serve the calls in order, threading the store; the results come back in
    the order of the calls. *)
Fixpoint run (calls : list call) (s : store) : list result * store :=
  match calls with
  | [] => ([], s)
  | (key, now) :: rest =>
      let '(r, s') := checkRateLimit now key s in
      let '(rs, s'') := run rest s' in
      (r :: rs, s'')
  end.

(** The results that the calls of identity [key] receive within a run. *)
Fixpoint results_for (key : jsstring) (calls : list call) (s : store)
  : list result :=
  match calls with
  | [] => []
  | (k, now) :: rest =>
      let '(r, s') := checkRateLimit now k s in
      if decide (k = key) then r :: results_for key rest s'
      else results_for key rest s'
  end.

(** The calls of one identity, in order. *)
Definition calls_of (key : jsstring) (calls : list call) : list call :=
  filter (fun c => c.1 = key) calls.

(** ** Notions used to state the properties *)

(** The results of a window that is already open: [n] allowed requests
    whose [remaining] counts down from [from]. *)
Fixpoint countdown (reset from : Z) (n : nat) : list result :=
  match n with
  | O => []
  | S n' => Result true reset from :: countdown reset (from - 1) n'
  end.

(** No entry, or an entry whose window has passed at [now]. *)
Definition window_closed (now : Z) (key : jsstring) (s : store) : Prop :=
  match s !! key with
  | None => True
  | Some e => resetTime e < now
  end.

(** Every stored count is between one and the limit. *)
Definition store_ok (s : store) : Prop :=
  ∀ key e, s !! key = Some e → 1 ≤ count e ≤ RATE_LIMIT.

(** The stores the limiter can be in at clock reading [t]: the empty map,
    and what a call at a later or equal reading makes of such a store. *)
Inductive reachable : Z → store → Prop :=
| reach_empty t : reachable t ∅
| reach_call t s now key :
    reachable t s → t ≤ now →
    reachable now (checkRateLimit now key s).2.

(** The clock readings of the calls do not go down, starting from [t]. *)
Fixpoint nondecreasing_from (t : Z) (calls : list call) : Prop :=
  match calls with
  | [] => True
  | (_, now) :: rest => t ≤ now ∧ nondecreasing_from now rest
  end.

(** The reading of the last call, [t] when there is none. *)
Fixpoint last_reading (t : Z) (calls : list call) : Z :=
  match calls with
  | [] => t
  | (_, now) :: rest => last_reading now rest
  end.

(** ** Client identity resolution *)

(** The part of a [NextRequest] the limiter reads: its header list, with
    [headers.get(name)] as the lookup ([None] is JavaScript's [null]).
    [Headers] compares names without regard to case; the map is keyed by the
    lower-case names, which are the ones the code asks for. *)
Record NextRequest := { headers : gmap jsstring jsstring }.

Definition headers_get (request : NextRequest) (name : string)
  : option jsstring :=
  headers request !! str name.

(** One [if (value) return f(value);] step of the cascade: taken when the
    header is present and non-empty, otherwise control falls through. *)
Definition if_truthy (value : option jsstring) (f : jsstring -> jsstring)
    (otherwise : jsstring) : jsstring :=
  match value with
  | Some v => if truthy v then f v else otherwise
  | None => otherwise
  end.

(** [getRateLimitKey(request)].  [split(",")[0]] is the first piece; a
    split always has one, so the default of [hd] is never used (lemma
    [split_nonempty]). *)
Definition getRateLimitKey (request : NextRequest) : jsstring :=
  let forwarded := headers_get request "x-forwarded-for" in
  let realIp := headers_get request "x-real-ip" in
  let cfConnectingIp := headers_get request "cf-connecting-ip" in
  let xClientIp := headers_get request "x-client-ip" in
  if_truthy cfConnectingIp (fun v => v)
    (if_truthy forwarded (fun v => trim (hd [] (split comma v)))
       (if_truthy realIp (fun v => v)
          (if_truthy xClientIp (fun v => v)
             (str "unknown-client")))).

(** The policy in the specification's words, for comparison with the code:
    the candidate identities in priority order, the forwarded-for candidate
    being the first comma-separated entry, trimmed; the first candidate that
    is present and non-empty wins, and the sentinel is the fallback. *)
Definition candidates (request : NextRequest) : list (option jsstring) :=
  [ headers_get request "cf-connecting-ip";
    (fun v => trim (hd [] (split comma v)))
      <$> headers_get request "x-forwarded-for";
    headers_get request "x-real-ip";
    headers_get request "x-client-ip" ].

Fixpoint first_nonempty (cands : list (option jsstring))
    (sentinel : jsstring) : jsstring :=
  match cands with
  | [] => sentinel
  | Some (c :: v) :: _ => c :: v
  | _ :: rest => first_nonempty rest sentinel
  end.

Definition spec_key (request : NextRequest) : jsstring :=
  first_nonempty (candidates request) (str "unknown-client").

(** The policy the code follows: a header is chosen by its raw value, and
    only then is the forwarded-for value cut down to its first entry. *)
Definition raw_candidates (request : NextRequest)
  : list (option jsstring * (jsstring -> jsstring)) :=
  [ (headers_get request "cf-connecting-ip", fun v => v);
    (headers_get request "x-forwarded-for",
       fun v => trim (hd [] (split comma v)));
    (headers_get request "x-real-ip", fun v => v);
    (headers_get request "x-client-ip", fun v => v) ].

Fixpoint first_raw_nonempty
    (cands : list (option jsstring * (jsstring -> jsstring)))
    (sentinel : jsstring) : jsstring :=
  match cands with
  | [] => sentinel
  | (Some (c :: v), f) :: _ => f (c :: v)
  | _ :: rest => first_raw_nonempty rest sentinel
  end.

(** The four header names the resolution reads. *)
Definition identity_headers : list jsstring :=
  [str "cf-connecting-ip"; str "x-forwarded-for"; str "x-real-ip";
   str "x-client-ip"].

(** A request whose forwarded-for list starts with an empty entry, as a
    proxy that appends to an empty header produces, and that also carries a
    real-IP header. *)
Definition empty_first_entry_request : NextRequest :=
  {| headers := {[ str "x-forwarded-for" := str ",1.1.1.1";
                   str "x-real-ip" := str "2.2.2.2" ]} |}.

(** The forwarded-for header is the one in force: no proxy-reported
    address, and a non-empty forwarded-for value. *)
Definition forwarded_in_force (request : NextRequest) : Prop :=
  truthy_opt (headers_get request "cf-connecting-ip") = false /\
  truthy_opt (headers_get request "x-forwarded-for") = true.

End RateLimit.

(** ** Feedback parsing of the route handler *)

Module Feedback.

Definition dot : N := 46.

(** After the first digit of [/^\d+\.?\s/]: further digits, then an optional
    dot, then one white-space character.  Digits, the dot and white space
    are disjoint classes, so giving back digits never opens another match
    and the greedy walk decides the expression. *)
Fixpoint after_digit (s : jsstring) : bool :=
  match s with
  | [] => false
  | c :: rest =>
      if is_digit c then after_digit rest
      else if (c =? dot)%N then
        match rest with
        | d :: _ => is_space d
        | [] => false
        end
      else is_space c
  end.

(** [line.match(/^\d+\.?\s/)] is not [null]. *)
Definition matches_numbering (line : jsstring) : bool :=
  match line with
  | c :: rest => is_digit c && after_digit rest
  | [] => false
  end.

(** The filter predicate [line.length > 0 && !line.match(/^\d+\.?\s/)]. *)
Definition keep_line (line : jsstring) : bool :=
  (0 <? length line)%nat && negb (matches_numbering line).

(** [parseTextToArray(text)]. *)
Definition parseTextToArray (text : jsstring) : list jsstring :=
  take 3 (List.filter keep_line (List.map trim (split newline text))).

Record feedback := {
  strengths : list jsstring;
  improvements : list jsstring;
  recommendations : list jsstring;
  overallFeedback : jsstring
}.

(** [text ?? ""] for the [text] of a model response, which may be
    [undefined]. *)
Definition text_or_empty (text : option jsstring) : jsstring :=
  match text with Some t => t | None => [] end.

(** [a || b] on strings. *)
Definition or_else (a b : jsstring) : jsstring :=
  if truthy a then a else b.

(** [if (list.length === 0) list = [canned]]. *)
Definition fallback_if_empty (l : list jsstring) (canned : string)
  : list jsstring :=
  if (length l =? 0)%nat then [str canned] else l.

(** The [feedback] object of a 200 response, from the [text] of the four
    feedback generations: the object literal, then the three fallback
    assignments. *)
Definition build_feedback
    (strengthsText improvementsText recommendationsText overallText
       : option jsstring) : feedback :=
  let fb :=
    {| strengths := parseTextToArray (text_or_empty strengthsText);
       improvements := parseTextToArray (text_or_empty improvementsText);
       recommendations :=
         parseTextToArray (text_or_empty recommendationsText);
       overallFeedback :=
         or_else (trim (text_or_empty overallText))
           (str "Your project has been analyzed across six key criteria. Review the individual scores to identify areas for improvement.") |} in
  {| strengths :=
       fallback_if_empty (strengths fb)
         "Project shows potential in multiple areas";
     improvements :=
       fallback_if_empty (improvements fb)
         "Consider refining areas with lower scores";
     recommendations :=
       fallback_if_empty (recommendations fb)
         "Focus on strengthening core value proposition";
     overallFeedback := overallFeedback fb |}.

(** [lines.join("\n")]: what a model answer of these lines looks like. *)
Fixpoint join_lines (lines : list jsstring) : jsstring :=
  match lines with
  | [] => []
  | [line] => line
  | line :: rest => line ++ newline :: join_lines rest
  end.

(** A line as the feedback lists show it: not empty, no white space at
    either end, no line break inside, and no numbering in front. *)
Definition clean_line (line : jsstring) : Prop :=
  line ≠ [] ∧
  (∀ c, head line = Some c → is_space c = false) ∧
  (∀ c, last line = Some c → is_space c = false) ∧
  Forall (fun c => c ≠ newline) line ∧
  matches_numbering line = false.

End Feedback.

(** ** The history helpers of [page.tsx] *)

Module History.

(** Exceptions the helpers can meet. *)
Inductive exn := SyntaxError | TypeError | QuotaExceededError.

(** The outcome of an expression that may throw. *)
Inductive completion (A : Type) :=
| Normal (a : A)
| Throw (e : exn).
Arguments Normal {A} a.
Arguments Throw {A} e.

(** Sequencing: the first [Throw] ends the computation. *)
#[global] Instance completion_ret : MRet completion := fun _ a => Normal a.
#[global] Instance completion_bind : MBind completion := fun _ _ k c =>
  match c with
  | Normal a => k a
  | Throw e => Throw e
  end.

(** JSON-shaped JavaScript values over a type of numbers. *)
#[local] Set Warnings "-register-all".
Inductive jsvalue (number : Type) :=
| JNull
| JBool (b : bool)
| JNum (x : number)
| JStr (s : jsstring)
| JArr (items : list (jsvalue number))
| JObj (fields : list (jsstring * jsvalue number)).
Arguments JNull {number}.
Arguments JBool {number} b.
Arguments JNum {number} x.
Arguments JStr {number} s.
Arguments JArr {number} items.
Arguments JObj {number} fields.

(** The built-in [JSON] object: [JSON.parse] throws on malformed text. *)
Class JSON (number : Type) := {
  JSON_parse : jsstring -> completion (jsvalue number);
  JSON_stringify : jsvalue number -> jsstring;
  (** the text of the default, [[]], is the empty array *)
  JSON_parse_empty_array : JSON_parse (str "[]") = Normal (JArr [])
}.

(** The browser state the helpers touch: [localStorage] and what was
    written to [console.error]. *)
Record browser := {
  localStorage : gmap jsstring jsstring;
  console : list (jsstring * exn)
}.

Definition STORAGE_KEY : jsstring := str "proscore-analyses".

Definition getItem (key : jsstring) (b : browser) : option jsstring :=
  localStorage b !! key.

(** The browser after [localStorage.setItem] has accepted a write. *)
Definition setItem (key value : jsstring) (b : browser) : browser :=
  {| localStorage := <[key := value]> (localStorage b);
     console := console b |}.

(** The storage quota: whether the storage, holding what it holds, accepts
    the write of [value] under [key].  How much room there is is the
    browser's matter. *)
Class StorageQuota := {
  write_accepted : gmap jsstring jsstring -> jsstring -> jsstring -> bool
}.

(** [localStorage.setItem(key, value)]: a write over the quota throws and
    leaves the storage as it is. *)
Definition localStorage_setItem `{!StorageQuota} (key value : jsstring)
    (b : browser) : completion browser :=
  if write_accepted (localStorage b) key value
  then Normal (setItem key value b)
  else Throw QuotaExceededError.

Definition console_error (message : string) (e : exn) (b : browser)
  : browser :=
  {| localStorage := localStorage b;
     console := console b ++ [(str message, e)] |}.

(** [item || "[]"] for an [item] that is a string or [null]. *)
Definition item_or (item : option jsstring) (otherwise : jsstring)
  : jsstring :=
  match item with
  | Some s => if truthy s then s else otherwise
  | None => otherwise
  end.

Definition is_high_surrogate (c : N) : bool :=
  ((55296 <=? c) && (c <=? 56319))%N.
Definition is_low_surrogate (c : N) : bool :=
  ((56320 <=? c) && (c <=? 57343))%N.

(** The string iterator: one string per code point, a surrogate pair
    staying together. *)
Fixpoint code_points (s : jsstring) : list jsstring :=
  match s with
  | [] => []
  | c :: rest =>
      match rest with
      | d :: rest' =>
          if is_high_surrogate c && is_low_surrogate d
          then [c; d] :: code_points rest'
          else [c] :: code_points rest
      | [] => [[c]]
      end
  end.

Section Helpers.
Context {number : Type} `{!JSON number} `{!StorageQuota}.

(** [value.slice(0, 9)]: arrays and strings have the method, on anything
    else the call throws a [TypeError]. *)
Definition slice_0_9 (value : jsvalue number)
  : completion (jsvalue number) :=
  match value with
  | JArr items => Normal (JArr (take 9 items))
  | JStr s => Normal (JStr (take 9 s))
  | _ => Throw TypeError
  end.

(** [...value] inside an array literal. *)
Definition spread (value : jsvalue number)
  : completion (list (jsvalue number)) :=
  match value with
  | JArr items => Normal items
  | JStr s => Normal (JStr <$> code_points s)
  | _ => Throw TypeError
  end.

(** [saveToLocalStorage(analysis)]: the write is the last step inside the
    [try], so a refused write ends in the [catch] like any other failure. *)
Definition saveToLocalStorage (analysis : jsvalue number) (b : browser)
  : browser :=
  let body :=
    existing ← JSON_parse (item_or (getItem STORAGE_KEY b) (str "[]"));
    head9 ← slice_0_9 existing;
    rest ← spread head9;
    let updated := JArr (analysis :: rest) in
    localStorage_setItem STORAGE_KEY (JSON_stringify updated) b in
  match body with
  | Normal b' => b'
  | Throw error => console_error "Failed to save to localStorage:" error b
  end.

(** [getFromLocalStorage()]: the value returned and the browser state. *)
Definition getFromLocalStorage (b : browser) : jsvalue number * browser :=
  match JSON_parse (item_or (getItem STORAGE_KEY b) (str "[]")) with
  | Normal value => (value, b)
  | Throw error =>
      (JArr [], console_error "Failed to load from localStorage:" error b)
  end.

End Helpers.

End History.

(** ** A JSON reader and writer for integers, plain strings, arrays and
    objects

    An instance of the [JSON] interface on which the helpers can be run:
    numbers are integer literals, and strings escape only the quote and the
    backslash. *)

Module MiniJSON.
Import History.

Definition quote : N := 34.
Definition backslash : N := 92.

Definition is_json_space (c : N) : bool :=
  (c =? 32)%N || (c =? 9)%N || (c =? 10)%N || (c =? 13)%N.

Fixpoint skip_space (s : jsstring) : jsstring :=
  match s with
  | c :: rest => if is_json_space c then skip_space rest else s
  | [] => []
  end.

Fixpoint strip_prefix (lit s : jsstring) : option jsstring :=
  match lit, s with
  | [], _ => Some s
  | a :: lit', c :: s' => if (a =? c)%N then strip_prefix lit' s' else None
  | _ :: _, [] => None
  end.

(** The characters of a string literal after its opening quote, and what
    follows the closing quote. *)
Fixpoint read_string (acc s : jsstring) : option (jsstring * jsstring) :=
  match s with
  | [] => None
  | c :: rest =>
      if (c =? quote)%N then Some (rev acc, rest)
      else if (c =? backslash)%N then
        match rest with
        | d :: rest' =>
            if (d =? quote)%N || (d =? backslash)%N
            then read_string (d :: acc) rest'
            else None
        | [] => None
        end
      else if (c <? 32)%N then None
      else read_string (c :: acc) rest
  end.

Fixpoint read_digits (s : jsstring) : jsstring * jsstring :=
  match s with
  | c :: rest =>
      if is_digit c
      then let '(ds, rest') := read_digits rest in (c :: ds, rest')
      else ([], s)
  | [] => ([], [])
  end.

Definition digits_value (ds : jsstring) : Z :=
  fold_left (fun acc d => 10 * acc + (Z.of_N d - 48)) ds 0.

(** An integer literal: an optional minus sign, then [0] or a digit string
    without a leading zero; a fraction or an exponent is outside the
    fragment. *)
Definition read_number (s : jsstring) : option (Z * jsstring) :=
  let '(neg, s1) :=
    match s with
    | c :: rest => if (c =? 45)%N then (true, rest) else (false, s)
    | [] => (false, s)
    end in
  match read_digits s1 with
  | ([], _) => None
  | (d :: ds, rest) =>
      let leading_zero := (d =? 48)%N && (0 <? length ds)%nat in
      let continues :=
        match rest with
        | c :: _ => (c =? 46)%N || (c =? 101)%N || (c =? 69)%N
        | [] => false
        end in
      if leading_zero || continues then None
      else let n := digits_value (d :: ds) in
           Some (if neg then - n else n, rest)
  end.

Fixpoint read_value (fuel : nat) (s : jsstring)
  : option (jsvalue Z * jsstring) :=
  match fuel with
  | O => None
  | S fuel' =>
      match skip_space s with
      | [] => None
      | c :: rest =>
          if (c =? 91)%N then
            match skip_space rest with
            | d :: rest' =>
                if (d =? 93)%N then Some (JArr [], rest')
                else '(items, rest'') ← read_items fuel' rest;
                     Some (JArr items, rest'')
            | [] => None
            end
          else if (c =? 123)%N then
            match skip_space rest with
            | d :: rest' =>
                if (d =? 125)%N then Some (JObj [], rest')
                else '(fields, rest'') ← read_fields fuel' rest;
                     Some (JObj fields, rest'')
            | [] => None
            end
          else if (c =? quote)%N then
            '(text, rest') ← read_string [] rest; Some (JStr text, rest')
          else if (c =? 45)%N || is_digit c then
            '(n, rest') ← read_number (c :: rest); Some (JNum n, rest')
          else
            match strip_prefix (str "null") (c :: rest),
                  strip_prefix (str "true") (c :: rest),
                  strip_prefix (str "false") (c :: rest) with
            | Some rest', _, _ => Some (JNull, rest')
            | _, Some rest', _ => Some (JBool true, rest')
            | _, _, Some rest' => Some (JBool false, rest')
            | _, _, _ => None
            end
      end
  end
with read_items (fuel : nat) (s : jsstring)
  : option (list (jsvalue Z) * jsstring) :=
  match fuel with
  | O => None
  | S fuel' =>
      '(v, rest) ← read_value fuel' s;
      match skip_space rest with
      | c :: rest' =>
          if (c =? 93)%N then Some ([v], rest')
          else if (c =? comma)%N then
            '(vs, rest'') ← read_items fuel' rest'; Some (v :: vs, rest'')
          else None
      | [] => None
      end
  end
with read_fields (fuel : nat) (s : jsstring)
  : option (list (jsstring * jsvalue Z) * jsstring) :=
  match fuel with
  | O => None
  | S fuel' =>
      match skip_space s with
      | q :: s1 =>
          if (q =? quote)%N then
            '(name, s2) ← read_string [] s1;
            match skip_space s2 with
            | colon :: s3 =>
                if (colon =? 58)%N then
                  '(v, rest) ← read_value fuel' s3;
                  match skip_space rest with
                  | c :: rest' =>
                      if (c =? 125)%N then Some ([(name, v)], rest')
                      else if (c =? comma)%N then
                        '(fs, rest'') ← read_fields fuel' rest';
                        Some ((name, v) :: fs, rest'')
                      else None
                  | [] => None
                  end
                else None
            | [] => None
            end
          else None
      | [] => None
      end
  end.

(** The whole text must be one value, white space aside. *)
Definition parse (s : jsstring) : completion (jsvalue Z) :=
  match read_value (2 * length s + 2) s with
  | Some (v, rest) =>
      match skip_space rest with
      | [] => Normal v
      | _ :: _ => Throw SyntaxError
      end
  | None => Throw SyntaxError
  end.

Fixpoint write_string (s : jsstring) : jsstring :=
  match s with
  | [] => []
  | c :: rest =>
      if (c =? quote)%N || (c =? backslash)%N
      then backslash :: c :: write_string rest
      else c :: write_string rest
  end.

Definition write_number (n : Z) : jsstring :=
  str (NilZero.string_of_int (Z.to_int n)).

Fixpoint stringify (v : jsvalue Z) : jsstring :=
  match v with
  | JNull => str "null"
  | JBool true => str "true"
  | JBool false => str "false"
  | JNum n => write_number n
  | JStr s => quote :: write_string s ++ [quote]
  | JArr items =>
      91%N ::
      (fix write_items (l : list (jsvalue Z)) : jsstring :=
         match l with
         | [] => []
         | x :: rest =>
             stringify x ++
             match rest with
             | [] => []
             | _ :: _ => comma :: write_items rest
             end
         end) items ++ [93%N]
  | JObj fields =>
      123%N ::
      (fix write_fields (l : list (jsstring * jsvalue Z)) : jsstring :=
         match l with
         | [] => []
         | (name, x) :: rest =>
             (quote :: write_string name ++ [quote; 58%N]) ++ stringify x ++
             match rest with
             | [] => []
             | _ :: _ => comma :: write_fields rest
             end
         end) fields ++ [125%N]
  end.

#[global] Instance mini_json : JSON Z :=
  {| JSON_parse := parse;
     JSON_stringify := stringify;
     JSON_parse_empty_array := eq_refl |}.

(** The code units a storage holds, keys and values. *)
Definition stored_units (m : gmap jsstring jsstring) : N :=
  map_fold (fun key value total =>
              (N.of_nat (length key) + N.of_nat (length value) + total)%N)
           0%N m.

(** A storage with room for [capacity] code units: a write is accepted when
    the storage would still fit afterwards. *)
Definition room_for (capacity : N) : StorageQuota :=
  {| write_accepted m key value :=
       (stored_units (<[key := value]> m) <=? capacity)%N |}.

(** Five mebibytes of two-byte code units, a common quota. *)
#[global] Instance five_mebibytes : StorageQuota := room_for 2621440.

(** Browser states to run the helpers on: a history of eleven entries, and
    a history key holding text that is not JSON. *)
Definition long_history : list (jsvalue Z) :=
  JNum <$> [11; 10; 9; 8; 7; 6; 5; 4; 3; 2; 1].

Definition browser_with_long_history : browser :=
  {| localStorage := {[ STORAGE_KEY := stringify (JArr long_history) ]};
     console := [] |}.

Definition browser_with_broken_history : browser :=
  {| localStorage := {[ STORAGE_KEY := str "[{broken" ]};
     console := [] |}.

Definition new_analysis : jsvalue Z :=
  JObj [(str "id", JStr (str "12")); (str "timestamp", JNum 12)].

(** A history of three entries, one of them with the id "7", and a history
    with a [null] among its entries. *)
Definition short_history : list (jsvalue Z) :=
  [ JObj [(str "id", JStr (str "7")); (str "timestamp", JNum 7)];
    JObj [(str "id", JStr (str "5")); (str "timestamp", JNum 5)];
    JNum 3 ].


Definition browser_with_null_entry : browser :=
  {| localStorage :=
       {[ STORAGE_KEY := stringify (JArr (JNull :: short_history)) ]};
     console := [] |}.

End MiniJSON.

(** ** The request handler [POST] of the route *)

Module Route.
Import RateLimit Feedback.

(** [n.toString()] for a whole number [n] (below 10^21 in magnitude, the
    range in which JavaScript prints plain decimal digits). *)
Definition toString (n : Z) : jsstring :=
  str (NilZero.string_of_int (Z.to_int n)).

(** [Math.ceil(a / 1000)] for a whole number [a].  For a safe integer [a]
    the double quotient is a whole number only when [a] is a multiple of
    1000, so rounding up the quotient is the integer ceiling. *)
Definition ceil_div_1000 (a : Z) : Z := - ((- a) / 1000).

Section Handler.
Context {number : Type} (parseFloat : jsstring -> number).

(** The six parsed scores. *)
Record scores := {
  nameScore : number;
  descriptionScore : number;
  monetizabilityScore : number;
  usefulnessScore : number;
  funScore : number;
  simplicityScore : number
}.

(** The [text] of the ten generations, each possibly [undefined]. *)
Record generations := {
  nameText : option jsstring;
  descriptionText : option jsstring;
  monetizabilityText : option jsstring;
  usefulnessText : option jsstring;
  funText : option jsstring;
  simplicityText : option jsstring;
  strengthsText : option jsstring;
  improvementsText : option jsstring;
  recommendationsText : option jsstring;
  overallText : option jsstring
}.

(** How the awaits of the [try] block end: all of them settle with the
    texts, or one of them (reading the body, a generation) throws. *)
Inductive upstream :=
| Completed (g : generations)
| Rejected.

Inductive response_body :=
| ScoreBody (sc : scores) (fb : feedback)
| RateLimitedBody (error : jsstring) (retryAfter : Z)
| FailureBody (error : jsstring).

(** A response: its status, its JSON body and the headers the handler
    sets on it, in the order it sets them. *)
Record response := {
  status : Z;
  body : response_body;
  response_headers : list (jsstring * jsstring)
}.

(** [response.headers.get(name)] for a name as the handler spells it. *)
Fixpoint header_of (name : jsstring) (hs : list (jsstring * jsstring))
  : option jsstring :=
  match hs with
  | [] => None
  | (n, v) :: rest => if decide (n = name) then Some v else header_of name rest
  end.

(** [Number.parseFloat(response.text ?? "0")]. *)
Definition parse_score (text : option jsstring) : number :=
  parseFloat (match text with Some t => t | None => str "0" end).

(** What [POST] returns, given the two clock readings ([now] inside
    [checkRateLimit], [now2] when the retry delay is computed), the request
    and the outcome of the awaits; with the store as the handler's one
    access to it, the check, leaves it, and the lines the handler writes to
    [console.error].  A 429 is returned at once.  A 200 or a 500 is returned
    after the awaits, and by then other requests and the sweep may have
    changed the store again; the handler does not look at it any more. *)
Definition POST (now now2 : Z) (request : NextRequest) (up : upstream)
    (s : store) : response * store * list jsstring :=
  let rateLimitKey := getRateLimitKey request in
  let '(rateLimitResult, s') := checkRateLimit now rateLimitKey s in
  if negb (allowed rateLimitResult) then
    let retryAfter :=
      ceil_div_1000 (res_resetTime rateLimitResult - now2) in
    ({| status := 429;
        body := RateLimitedBody
                  (str "Rate limit exceeded. Too many requests.") retryAfter;
        response_headers :=
          [ (str "X-RateLimit-Limit", toString RATE_LIMIT);
            (str "X-RateLimit-Remaining", str "0");
            (str "X-RateLimit-Reset",
               toString (res_resetTime rateLimitResult));
            (str "Retry-After", toString retryAfter) ] |},
     s', [])
  else
    match up with
    | Completed g =>
        let sc :=
          {| nameScore := parse_score (nameText g);
             descriptionScore := parse_score (descriptionText g);
             monetizabilityScore := parse_score (monetizabilityText g);
             usefulnessScore := parse_score (usefulnessText g);
             funScore := parse_score (funText g);
             simplicityScore := parse_score (simplicityText g) |} in
        let fb :=
          build_feedback (strengthsText g) (improvementsText g)
            (recommendationsText g) (overallText g) in
        ({| status := 200;
            body := ScoreBody sc fb;
            response_headers :=
              [ (str "X-RateLimit-Limit", toString RATE_LIMIT);
                (str "X-RateLimit-Remaining",
                   toString (remaining rateLimitResult));
                (str "X-RateLimit-Reset",
                   toString (res_resetTime rateLimitResult)) ] |},
         s', [])
    | Rejected =>
        ({| status := 500;
            body := FailureBody
                      (str "Internal server error. Please try again later.");
            response_headers :=
              [ (str "X-RateLimit-Limit", toString RATE_LIMIT);
                (str "X-RateLimit-Remaining",
                   toString (remaining rateLimitResult));
                (str "X-RateLimit-Reset",
                   toString (res_resetTime rateLimitResult)) ] |},
         s', [str "Error processing request:"])
    end.

End Handler.

Arguments ScoreBody {number} sc fb.
Arguments RateLimitedBody {number} error retryAfter.
Arguments FailureBody {number} error.

(** A request that names its sender in the real-IP header, and an outcome
    of the awaits in which every generation came back without text. *)
Definition request_from (ip : string) : NextRequest :=
  {| headers := {[ str "x-real-ip" := str ip ]} |}.

Definition no_text : generations :=
  {| nameText := None; descriptionText := None; monetizabilityText := None;
     usefulnessText := None; funText := None; simplicityText := None;
     strengthsText := None; improvementsText := None;
     recommendationsText := None; overallText := None |}.

End Route.

(** ** More of [page.tsx]: deleting from the history, form checks and the
    retry countdown *)

Module Page.
Import History.

Section Helpers.
Context {number : Type} `{!JSON number}.

(** The value of the field [name] of an object; when a name occurs twice
    the later field counts, as in [JSON.parse]. *)
Fixpoint field_of (name : jsstring)
    (fields : list (jsstring * jsvalue number)) : option (jsvalue number) :=
  match fields with
  | [] => None
  | (n, v) :: rest =>
      match field_of name rest with
      | Some w => Some w
      | None => if decide (n = name) then Some v else None
      end
  end.

(** [item.id]: reading a property of [null] throws, an object gives its
    field or [undefined] ([None]), and numbers, booleans, strings and arrays
    have no [id]. *)
Definition item_id (item : jsvalue number)
  : completion (option (jsvalue number)) :=
  match item with
  | JNull => Throw TypeError
  | JObj fields => Normal (field_of (str "id") fields)
  | _ => Normal None
  end.

(** [v !== id] for a string [id]: only an equal string is not different. *)
Definition differs_from (id : jsstring) (v : option (jsvalue number))
  : bool :=
  match v with
  | Some (JStr s) => negb (bool_decide (s = id))
  | _ => true
  end.

(** [items.filter((item) => item.id !== id)], the callback run on the
    items in order; the first throw ends the filter. *)
Fixpoint filter_out_id (id : jsstring) (items : list (jsvalue number))
  : completion (list (jsvalue number)) :=
  match items with
  | [] => Normal []
  | item :: rest =>
      v ← item_id item;
      kept ← filter_out_id id rest;
      mret (if differs_from id v then item :: kept else kept)
  end.

(** [existing.filter(...)]: only arrays have the method. *)
Definition array_filter_out_id (id : jsstring) (existing : jsvalue number)
  : completion (list (jsvalue number)) :=
  match existing with
  | JArr items => filter_out_id id items
  | _ => Throw TypeError
  end.

(** [deleteFromLocalStorage(id)].  Its write puts back the history it has
    just read, less the removed entries, and is taken as accepted
    ([setItem]). *)
Definition deleteFromLocalStorage (id : jsstring) (b : browser) : browser :=
  let '(existing, b1) := getFromLocalStorage b in
  let body :=
    updated ← array_filter_out_id id existing;
    mret (setItem STORAGE_KEY (JSON_stringify (JArr updated)) b1) in
  match body with
  | Normal b' => b'
  | Throw error => console_error "Failed to delete from localStorage:" error b1
  end.


Definition is_null (item : jsvalue number) : bool :=
  match item with JNull => true | _ => false end.

End Helpers.

(** The guard at the top of [handleSubmit]:
    [!projectName.trim() || !projectDescription.trim()]. *)
Definition submit_refused (projectName projectDescription : jsstring)
  : bool :=
  negb (truthy (trim projectName)) || negb (truthy (trim projectDescription)).

(** [errorData.retryAfter || 60] in the 429 branch of [handleSubmit], for a
    whole-number or missing [retryAfter]. *)
Definition retry_start (retryAfter : option Z) : Z :=
  match retryAfter with
  | Some r => if r =? 0 then 60 else r
  | None => 60
  end.

(** The state the countdown effect reads and writes. *)
Record countdown_state := {
  retryCountdown : option Z;
  error : option jsstring
}.

(** One run of the effect on [retryCountdown], timer included: a positive
    count is lowered by one when the second has passed, a count of zero is
    cleared together with the error, anything else is left alone
    ([None]). *)
Definition countdown_effect (st : countdown_state)
  : option countdown_state :=
  match retryCountdown st with
  | Some n =>
      if negb (n =? 0) && (n >? 0)
      then Some {| retryCountdown := Some (n - 1); error := error st |}
      else if n =? 0
      then Some {| retryCountdown := None; error := None |}
      else None
  | None => None
  end.

(** The state after at most [k] runs of the effect. *)
Fixpoint after_effects (k : nat) (st : countdown_state) : countdown_state :=
  match k with
  | O => st
  | S k' =>
      match countdown_effect st with
      | Some st' => after_effects k' st'
      | None => st
      end
  end.

(** [toggleTheme] of the theme switcher: the theme it sets, given the
    current one (possibly [undefined]). *)
Definition toggleTheme (theme : option jsstring) : jsstring :=
  if decide (theme = Some (str "dark")) then str "light" else str "dark".

(** The tooltip of the switch. *)
Definition switch_title (theme : option jsstring) : jsstring :=
  str "Switch to "
  ++ (if decide (theme = Some (str "dark")) then str "light" else str "dark")
  ++ str " mode".

End Page.

(** * Properties of the rate limiter *)

Module RateLimitProofs.
Import RateLimit.

(** Decide the comparisons of [checkRateLimit] and hand the bounds to
    [lia]. *)
Ltac split_tests :=
  repeat match goal with
         | |- context [?a >? ?b] => destruct (Z.gtb_spec a b)
         | |- context [?a >=? ?b] => destruct (Z.geb_spec a b)
         end.

Ltac unfold_check :=
  unfold checkRateLimit, RATE_LIMIT, RATE_LIMIT_WINDOW in *; simpl in *.

(** ** The three branches of [checkRateLimit] *)

Lemma check_fresh now (key : jsstring) (s : store) :
  window_closed now key s →
  checkRateLimit now key s
  = (Result true (now + 1000) 9, <[key := Entry 1 (now + 1000)]> s).
Proof.
  unfold window_closed. unfold_check.
  destruct (s !! key) as [e|]; [|done].
  intros Hpast. split_tests; try done; lia.
Qed.

Lemma check_denied now (key : jsstring) (s : store) e :
  s !! key = Some e → now ≤ resetTime e → 10 ≤ count e →
  checkRateLimit now key s = (Result false (resetTime e) 0, s).
Proof.
  intros Hkey Hnow Hfull. unfold_check. rewrite Hkey.
  split_tests; try done; lia.
Qed.

Lemma check_counted now (key : jsstring) (s : store) e :
  s !! key = Some e → now ≤ resetTime e → count e < 10 →
  checkRateLimit now key s
  = (Result true (resetTime e) (10 - (count e + 1)),
     <[key := Entry (count e + 1) (resetTime e)]> s).
Proof.
  intros Hkey Hnow Hroom. unfold_check. rewrite Hkey.
  split_tests; try done; lia.
Qed.

(** Unfolding one call of a run. *)
Lemma run_cons (key : jsstring) now rest (s : store) :
  run ((key, now) :: rest) s
  = ((checkRateLimit now key s).1 :: (run rest (checkRateLimit now key s).2).1,
     (run rest (checkRateLimit now key s).2).2).
Proof.
  simpl. destruct (checkRateLimit now key s) as [r s']. simpl.
  by destruct (run rest s') as [rs s''].
Qed.

(** Inside an open window every request is counted until the limit is hit:
    [length ts] requests at readings not after the reset time are all
    allowed when the count has room for them. *)
Lemma run_in_window (key : jsstring) ts : ∀ (s : store) c reset,
  s !! key = Some (Entry c reset) →
  c + Z.of_nat (length ts) ≤ 10 →
  Forall (fun t => t ≤ reset) ts →
  (run ((fun t => (key, t)) <$> ts) s).1
  = countdown reset (10 - (c + 1)) (length ts).
Proof.
  induction ts as [|t ts IH]; intros s c reset Hkey Hroom Hts; [done|].
  apply Forall_cons in Hts as [Ht Hts].
  rewrite fmap_cons, run_cons.
  rewrite (check_counted t key s _ Hkey); simpl in *; [|lia..].
  f_equal.
  rewrite (IH _ (c + 1) reset); [| by rewrite lookup_insert_eq | lia | done].
  f_equal. lia.
Qed.

(** ** Locality of [checkRateLimit] *)

(** A call leaves the entries of the other identities as they are. *)
Lemma check_frame now (key other : jsstring) (s : store) :
  key ≠ other → (checkRateLimit now key s).2 !! other = s !! other.
Proof.
  intros Hne. unfold checkRateLimit.
  destruct (s !! key) as [e|]; simpl;
    repeat case_match; simpl; by rewrite ?lookup_insert_ne.
Qed.

(** A call looks at the entry of its own identity only: its result and the
    entry it leaves are the same on two stores that agree there. *)
Lemma check_local now (key : jsstring) (s1 s2 : store) :
  s1 !! key = s2 !! key →
  (checkRateLimit now key s1).1 = (checkRateLimit now key s2).1 ∧
  (checkRateLimit now key s1).2 !! key = (checkRateLimit now key s2).2 !! key.
Proof.
  intros Heq. unfold checkRateLimit. rewrite <- Heq.
  destruct (s1 !! key) as [e|] eqn:Hkey; simpl;
    repeat case_match; simpl; rewrite ?lookup_insert_eq; auto.
  by rewrite Hkey.
Qed.

(** The results an identity sees in a run are those of its own calls run
    from any store with the same entry for it. *)
Lemma results_for_alone (key : jsstring) calls : ∀ (s1 s2 : store),
  s1 !! key = s2 !! key →
  results_for key calls s1 = (run (calls_of key calls) s2).1.
Proof.
  induction calls as [|[k now] calls IH]; intros s1 s2 Heq; [done|].
  unfold calls_of. rewrite filter_cons. simpl.
  destruct (checkRateLimit now k s1) as [r s1'] eqn:Hc1.
  destruct (decide (k = key)) as [->|Hne].
  - fold (calls_of key calls). rewrite run_cons. simpl.
    destruct (check_local now key s1 s2 Heq) as [Hr Hs].
    rewrite Hc1 in Hr, Hs. simpl in Hr, Hs. rewrite <- Hr. f_equal.
    by apply IH.
  - fold (calls_of key calls). apply IH.
    rewrite <- Heq. change s1' with (r, s1').2. rewrite <- Hc1.
    by apply check_frame.
Qed.

(** ** The sweep *)

(** What the sweep leaves of each entry. *)
Lemma sweep_lookup now (s : store) (key : jsstring) :
  sweep now s !! key
  = match s !! key with
    | Some e => if now >? resetTime e then None else Some e
    | None => None
    end.
Proof.
  unfold sweep.
  assert (∀ s0 : store,
    map_fold (fun k v acc => if now >? resetTime v then delete k acc else acc)
      s0 s !! key
    = match s !! key with
      | Some e => if now >? resetTime e then None else s0 !! key
      | None => s0 !! key
      end) as Hgen.
  { intros s0.
    apply (map_fold_weak_ind (fun acc (m : store) =>
      acc !! key = match m !! key with
                   | Some e => if now >? resetTime e then None else s0 !! key
                   | None => s0 !! key
                   end)).
    - by rewrite lookup_empty.
    - intros i x m r Hfresh IH.
      destruct (decide (i = key)) as [->|Hne].
      + rewrite lookup_insert_eq. rewrite Hfresh in IH.
        destruct (now >? resetTime x); [apply lookup_delete_eq | done].
      + rewrite lookup_insert_ne by done.
        destruct (now >? resetTime x); [|done].
        by rewrite lookup_delete_ne. }
  rewrite Hgen. destruct (s !! key) as [e|] eqn:Hkey; [|done].
  by destruct (now >? resetTime e).
Qed.

(** ** The invariant *)

Lemma check_keeps_ok now (key : jsstring) (s : store) :
  store_ok s → store_ok (checkRateLimit now key s).2.
Proof.
  intros Hok k e. unfold checkRateLimit.
  destruct (s !! key) as [cur|] eqn:Hkey; simpl.
  - pose proof (Hok _ _ Hkey) as Hcur. unfold RATE_LIMIT in *.
    split_tests; simpl.
    + destruct (decide (key = k)) as [->|Hne].
      * rewrite lookup_insert_eq. intros [= <-]. simpl. lia.
      * rewrite lookup_insert_ne by done. apply Hok.
    + apply Hok.
    + destruct (decide (key = k)) as [->|Hne].
      * rewrite lookup_insert_eq. intros [= <-]. simpl. lia.
      * rewrite lookup_insert_ne by done. apply Hok.
  - destruct (decide (key = k)) as [->|Hne].
    + rewrite lookup_insert_eq. intros [= <-]. unfold RATE_LIMIT. simpl. lia.
    + rewrite lookup_insert_ne by done. apply Hok.
Qed.

Lemma reachable_ok t (s : store) : reachable t s → store_ok s.
Proof.
  induction 1 as [t|t s now key _ IH _].
  - intros k e. by rewrite lookup_empty.
  - by apply check_keeps_ok.
Qed.

(** An allowed result reports the room left under the entry the call has
    just stored. *)
Lemma check_allowed_remaining now (key : jsstring) (s : store) :
  store_ok s →
  allowed (checkRateLimit now key s).1 = true →
  ∃ e, (checkRateLimit now key s).2 !! key = Some e ∧
       remaining (checkRateLimit now key s).1 = RATE_LIMIT - count e ∧
       0 ≤ remaining (checkRateLimit now key s).1 ≤ RATE_LIMIT - 1.
Proof.
  intros Hok. unfold checkRateLimit.
  destruct (s !! key) as [cur|] eqn:Hkey; simpl.
  - pose proof (Hok _ _ Hkey) as Hcur. unfold RATE_LIMIT in *.
    split_tests; simpl; intros Hallowed; try done.
    + eexists. rewrite lookup_insert_eq. split; [done|]. simpl. lia.
    + eexists. rewrite lookup_insert_eq. split; [done|]. simpl. lia.
  - intros _. eexists. rewrite lookup_insert_eq. split; [done|].
    unfold RATE_LIMIT. simpl. lia.
Qed.

(** The scenario of the specification: ten requests at 0 ms, an eleventh
    at 500 ms and a twelfth at 1100 ms, all from "1.2.3.4". *)
Example scenario_of_the_specification :
  (run ((fun t => (str "1.2.3.4", t)) <$> replicate 10 0 ++ [500; 1100]) ∅).1
  = ((fun n => Result true 1000 n) <$> [9; 8; 7; 6; 5; 4; 3; 2; 1; 0])
    ++ [Result false 1000 0; Result true 2100 9].
Proof. vm_compute. reflexivity. Qed.

(** ** The claims about [checkRateLimit] and the sweep *)

(** C1: when the first of [limit] = 10 requests of one identity opens a
    window (no entry, or an expired one) and the nine that follow arrive at
    clock readings not after that window's reset time, all ten are allowed
    and [remaining] runs 9, 8, ..., 0. *)
Theorem limit_requests_in_one_window (key : jsstring) (s : store) t0 ts :
  window_closed t0 key s →
  length ts = 9%nat →
  Forall (fun t => t ≤ t0 + 1000) ts →
  (run ((fun t => (key, t)) <$> t0 :: ts) s).1
  = (fun n => Result true (t0 + 1000) n) <$> [9; 8; 7; 6; 5; 4; 3; 2; 1; 0].
Proof.
  intros Hclosed Hlen Hts.
  rewrite fmap_cons, run_cons, (check_fresh _ _ _ Hclosed). simpl.
  rewrite (run_in_window key ts _ 1 (t0 + 1000));
    [| by rewrite lookup_insert_eq | lia | done].
  by rewrite Hlen.
Qed.

Lemma limit_requests_in_one_window_witness :
  (run ((fun t => (str "1.2.3.4", t)) <$> 0 :: replicate 9 0) ∅).1
  = (fun n => Result true (0 + 1000) n) <$> [9; 8; 7; 6; 5; 4; 3; 2; 1; 0].
Proof.
  apply (limit_requests_in_one_window (str "1.2.3.4") ∅ 0 (replicate 9 0)).
  - exact I.
  - reflexivity.
  - simpl. repeat constructor; lia.
Defined.

(** C2: a request for an identity whose entry is at the limit and whose
    window has not passed is denied with [remaining = 0] and the stored
    reset time, and the store is left exactly as it was. *)
Theorem denied_call_changes_nothing now (key : jsstring) (s : store) e :
  s !! key = Some e →
  count e >= RATE_LIMIT →
  ¬ now > resetTime e →
  checkRateLimit now key s = (Result false (resetTime e) 0, s).
Proof.
  unfold RATE_LIMIT. intros Hkey Hfull Hnow.
  apply (check_denied _ _ _ _ Hkey); lia.
Qed.

Lemma denied_call_changes_nothing_witness :
  checkRateLimit 500 (str "1.2.3.4") {[ str "1.2.3.4" := Entry 10 1000 ]}
  = (Result false 1000 0, {[ str "1.2.3.4" := Entry 10 1000 ]}).
Proof.
  apply (denied_call_changes_nothing 500 (str "1.2.3.4")
           {[ str "1.2.3.4" := Entry 10 1000 ]} (Entry 10 1000)).
  - reflexivity.
  - unfold RATE_LIMIT. simpl. lia.
  - simpl. lia.
Defined.

(** C3: when the identity has no entry, or its stored reset time is in the
    past, the call stores [{count: 1, resetTime: now + 1000}] and returns
    [allowed = true] with [remaining = 9], whatever the old entry counted. *)
Theorem fresh_window now (key : jsstring) (s : store) :
  s !! key = None ∨ (∃ e, s !! key = Some e ∧ now > resetTime e) →
  checkRateLimit now key s
  = (Result true (now + 1000) 9, <[key := Entry 1 (now + 1000)]> s) ∧
  (checkRateLimit now key s).2 !! key = Some (Entry 1 (now + 1000)) ∧
  allowed (checkRateLimit now key s).1 = true ∧
  remaining (checkRateLimit now key s).1 = RATE_LIMIT - 1.
Proof.
  intros Hclosed.
  assert (window_closed now key s) as Hw.
  { unfold window_closed.
    destruct Hclosed as [-> | (e & -> & Hpast)]; [done | lia]. }
  rewrite (check_fresh _ _ _ Hw). simpl.
  by rewrite lookup_insert_eq.
Qed.

Lemma fresh_window_witness :
  checkRateLimit 1100 (str "1.2.3.4") {[ str "1.2.3.4" := Entry 10 1000 ]}
  = (Result true (1100 + 1000) 9,
     <[str "1.2.3.4" := Entry 1 (1100 + 1000)]>
       {[ str "1.2.3.4" := Entry 10 1000 ]}) ∧
  (checkRateLimit 1100 (str "1.2.3.4")
     {[ str "1.2.3.4" := Entry 10 1000 ]}).2 !! str "1.2.3.4"
  = Some (Entry 1 (1100 + 1000)) ∧
  allowed (checkRateLimit 1100 (str "1.2.3.4")
             {[ str "1.2.3.4" := Entry 10 1000 ]}).1 = true ∧
  remaining (checkRateLimit 1100 (str "1.2.3.4")
               {[ str "1.2.3.4" := Entry 10 1000 ]}).1 = RATE_LIMIT - 1.
Proof.
  apply (fresh_window 1100 (str "1.2.3.4")
           {[ str "1.2.3.4" := Entry 10 1000 ]}).
  right. exists (Entry 10 1000). split; [reflexivity | simpl; lia].
Defined.

(** C4: for distinct identities A and B, a call for A leaves the entry of B
    as it is and returns the same result whatever B's entry holds; hence in
    any interleaving each identity receives the results of its own calls
    run alone, and two runs that agree on A's entry and on A's calls give A
    the same results. *)
Theorem identities_do_not_interfere (A B : jsstring) :
  A ≠ B →
  (∀ now (s : store), (checkRateLimit now A s).2 !! B = s !! B) ∧
  (∀ now (s : store) eB,
     (checkRateLimit now A (<[B := eB]> s)).1 = (checkRateLimit now A s).1 ∧
     (checkRateLimit now A (delete B s)).1 = (checkRateLimit now A s).1) ∧
  (∀ calls (s : store),
     results_for A calls s = (run (calls_of A calls) s).1 ∧
     results_for B calls s = (run (calls_of B calls) s).1) ∧
  (∀ calls1 calls2 (s1 s2 : store),
     s1 !! A = s2 !! A →
     calls_of A calls1 = calls_of A calls2 →
     results_for A calls1 s1 = results_for A calls2 s2).
Proof.
  intros Hne. split; [|split; [|split]].
  - intros now s. by apply check_frame.
  - intros now s eB. split; apply check_local.
    + by rewrite lookup_insert_ne.
    + by rewrite lookup_delete_ne.
  - intros calls s. split; by apply results_for_alone.
  - intros calls1 calls2 s1 s2 Hentry Hcalls.
    rewrite (results_for_alone A calls1 s1 s2 Hentry), Hcalls.
    symmetry. by apply results_for_alone.
Qed.

Lemma identities_do_not_interfere_witness :
  results_for (str "1.2.3.4")
    [(str "1.2.3.4", 0); (str "5.6.7.8", 1); (str "1.2.3.4", 2);
     (str "5.6.7.8", 3)] ∅
  = (run [(str "1.2.3.4", 0); (str "1.2.3.4", 2)] ∅).1.
Proof.
  assert (str "1.2.3.4" ≠ str "5.6.7.8") as Hne.
  { intros Heq. vm_compute in Heq. discriminate Heq. }
  exact (proj1 (proj1 (proj2 (proj2
    (identities_do_not_interfere (str "1.2.3.4") (str "5.6.7.8") Hne)))
    [(str "1.2.3.4", 0); (str "5.6.7.8", 1); (str "1.2.3.4", 2);
     (str "5.6.7.8", 3)] ∅)).
Defined.

(** C6: after a sweep at [now] an identity has an entry exactly when it had
    one before whose reset time has not passed ([now <= resetTime]), and
    that entry is the old one; a later check for an identity the sweep
    removed takes the fresh-entry branch and gives what a check of a
    never-seen identity gives. *)
Theorem sweep_keeps_live_entries now (s : store) (key : jsstring) :
  (is_Some (sweep now s !! key)
   ↔ ∃ e, s !! key = Some e ∧ now ≤ resetTime e) ∧
  (∀ e, sweep now s !! key = Some e
        ↔ s !! key = Some e ∧ now ≤ resetTime e) ∧
  (∀ e now', s !! key = Some e → now > resetTime e →
     checkRateLimit now' key (sweep now s)
     = (Result true (now' + 1000) 9,
        <[key := Entry 1 (now' + 1000)]> (sweep now s)) ∧
     (checkRateLimit now' key (sweep now s)).1
     = (checkRateLimit now' key ∅).1 ∧
     (checkRateLimit now' key (sweep now s)).2 !! key
     = (checkRateLimit now' key ∅).2 !! key).
Proof.
  assert (∀ e, sweep now s !! key = Some e
               ↔ s !! key = Some e ∧ now ≤ resetTime e) as Hlive.
  { intros e. rewrite sweep_lookup.
    destruct (s !! key) as [e'|]; [| split; [done | by intros [? _]]].
    destruct (Z.gtb_spec now (resetTime e')); split.
    - done.
    - intros [[= ->] ?]. lia.
    - intros [= ->]. split; [done | lia].
    - by intros [-> _]. }
  split; [|split]; [| exact Hlive |].
  - split.
    + intros [e He]. exists e. by apply Hlive.
    + intros (e & He). exists e. by apply Hlive.
  - intros e now' Hkey Hpast.
    assert (sweep now s !! key = None) as Hgone.
    { rewrite sweep_lookup, Hkey.
      destruct (Z.gtb_spec now (resetTime e)); [done | lia]. }
    assert (window_closed now' key (sweep now s)) as Hw
      by (unfold window_closed; by rewrite Hgone).
    split; [by apply check_fresh|].
    apply check_local. by rewrite Hgone, lookup_empty.
Qed.

Lemma sweep_keeps_live_entries_witness :
  checkRateLimit 60500 (str "1.2.3.4")
    (sweep 60000 {[ str "1.2.3.4" := Entry 7 1000;
                    str "5.6.7.8" := Entry 2 60400 ]})
  = (Result true (60500 + 1000) 9,
     <[str "1.2.3.4" := Entry 1 (60500 + 1000)]>
       (sweep 60000 {[ str "1.2.3.4" := Entry 7 1000;
                       str "5.6.7.8" := Entry 2 60400 ]})).
Proof.
  refine (proj1 (proj2 (proj2 (sweep_keeps_live_entries 60000
    {[ str "1.2.3.4" := Entry 7 1000; str "5.6.7.8" := Entry 2 60400 ]}
    (str "1.2.3.4"))) (Entry 7 1000) 60500 _ _)).
  - vm_compute. reflexivity.
  - simpl. lia.
Defined.

(** C7: in every store reachable from the empty map by calls at
    non-decreasing clock readings each entry has [1 <= count <= 10], and a
    further call that is allowed returns [remaining = 10 - count] for the
    entry it has just stored, a number between 0 and 9. *)
Theorem counts_stay_within_limit t (s : store) :
  reachable t s →
  (∀ (key : jsstring) e, s !! key = Some e → 1 ≤ count e ≤ 10) ∧
  (∀ now (key : jsstring), t ≤ now →
     allowed (checkRateLimit now key s).1 = true →
     ∃ e, (checkRateLimit now key s).2 !! key = Some e ∧
          remaining (checkRateLimit now key s).1 = 10 - count e ∧
          0 ≤ remaining (checkRateLimit now key s).1 ≤ 9).
Proof.
  intros Hreach. pose proof (reachable_ok _ _ Hreach) as Hok. split.
  - exact Hok.
  - intros now key _ Hallowed.
    destruct (check_allowed_remaining now key s Hok Hallowed)
      as (e & Hkey & Hrem & Hrange).
    unfold RATE_LIMIT in *. exists e. repeat split; [done | lia..].
Qed.

Lemma counts_stay_within_limit_witness :
  (∀ (key : jsstring) e,
     (checkRateLimit 5 (str "1.2.3.4")
        (checkRateLimit 0 (str "1.2.3.4") ∅).2).2 !! key = Some e →
     1 ≤ count e ≤ 10) ∧
  (∀ now (key : jsstring), 5 ≤ now →
     allowed (checkRateLimit now key
                (checkRateLimit 5 (str "1.2.3.4")
                   (checkRateLimit 0 (str "1.2.3.4") ∅).2).2).1 = true →
     ∃ e, (checkRateLimit now key
             (checkRateLimit 5 (str "1.2.3.4")
                (checkRateLimit 0 (str "1.2.3.4") ∅).2).2).2 !! key = Some e ∧
          remaining (checkRateLimit now key
                       (checkRateLimit 5 (str "1.2.3.4")
                          (checkRateLimit 0 (str "1.2.3.4") ∅).2).2).1
          = 10 - count e ∧
          0 ≤ remaining (checkRateLimit now key
                           (checkRateLimit 5 (str "1.2.3.4")
                              (checkRateLimit 0 (str "1.2.3.4") ∅).2).2).1
            ≤ 9).
Proof.
  apply (counts_stay_within_limit 5).
  apply (reach_call 0); [|lia].
  apply (reach_call 0); [|lia].
  apply reach_empty.
Defined.

End RateLimitProofs.

(** * Properties of the identity resolution *)

Module IdentityProofs.
Import RateLimit.

Lemma split_nonempty sep s : split sep s ≠ [].
Proof.
  destruct s as [|c s]; simpl; [done|].
  destruct (c =? sep)%N; [done|]. by destruct (split sep s).
Qed.

(** The first piece of a split holds no separator: [split(",")[0]] is the
    text before the first comma. *)
Lemma first_piece_no_separator sep s :
  Forall (fun c => c ≠ sep) (hd [] (split sep s)).
Proof.
  induction s as [|c s IH]; simpl; [constructor|].
  destruct (N.eqb_spec c sep) as [->|Hne]; simpl; [constructor|].
  destruct (split sep s) as [|piece pieces] eqn:Hsplit; simpl in *.
  - repeat constructor. done.
  - by constructor.
Qed.

Lemma first_nonempty_not_empty cands sentinel :
  sentinel ≠ [] → first_nonempty cands sentinel ≠ [].
Proof.
  intros Hs. induction cands as [|[[|c v]|] cands IH]; simpl; done.
Qed.

(** The scenarios of the specification. *)
Example key_prefers_cf_connecting_ip :
  getRateLimitKey
    {| headers := {[ str "cf-connecting-ip" := str "9.9.9.9";
                     str "x-forwarded-for" := str "1.1.1.1,2.2.2.2" ]} |}
  = str "9.9.9.9".
Proof. vm_compute. reflexivity. Qed.

Example key_first_forwarded_entry :
  getRateLimitKey
    {| headers := {[ str "x-forwarded-for" := str "1.1.1.1, 2.2.2.2" ]} |}
  = str "1.1.1.1".
Proof. vm_compute. reflexivity. Qed.

Example key_fallback :
  getRateLimitKey {| headers := ∅ |} = str "unknown-client".
Proof. vm_compute. reflexivity. Qed.

(** C5, as stated, fails: with a forwarded-for list whose first entry is
    empty the identity is the empty string although the real-IP header, later
    in the order, holds a non-empty value; the first present and non-empty
    candidate identity would have been that value. *)
Lemma key_empty_despite_real_ip :
  headers_get empty_first_entry_request "x-real-ip" = Some (str "2.2.2.2") ∧
  getRateLimitKey empty_first_entry_request = [] ∧
  spec_key empty_first_entry_request = str "2.2.2.2".
Proof. vm_compute. repeat split. Qed.

(** C5, amended: the header is chosen by its raw value (the first of
    cf-connecting-ip, x-forwarded-for, x-real-ip, x-client-ip that is present
    and non-empty) and a chosen forwarded-for value is then cut down to its
    first comma-separated entry, trimmed; without such a header the identity
    is "unknown-client".  The identity is the first non-empty candidate of
    the specification, and non-empty, unless it is the empty string, which
    happens exactly when forwarded-for is the header in force and its first
    entry is blank. *)
Theorem key_follows_raw_priority (request : NextRequest) :
  getRateLimitKey request
  = first_raw_nonempty (raw_candidates request) (str "unknown-client") ∧
  (getRateLimitKey request = spec_key request ∨
   getRateLimitKey request = []) ∧
  (getRateLimitKey request = []
   ↔ forwarded_in_force request ∧
     ∃ v, headers_get request "x-forwarded-for" = Some v ∧
          trim (hd [] (split comma v)) = []).
Proof.
  unfold getRateLimitKey, spec_key, candidates, raw_candidates,
    forwarded_in_force, if_truthy.
  destruct (headers_get request "cf-connecting-ip") as [[|c1 v1]|];
    destruct (headers_get request "x-forwarded-for") as [[|c2 v2]|];
    destruct (headers_get request "x-real-ip") as [[|c3 v3]|];
    destruct (headers_get request "x-client-ip") as [[|c4 v4]|];
    cbn [first_raw_nonempty first_nonempty truthy truthy_opt fmap option_fmap
         option_map];
    (split; [reflexivity|]);
    try (split; [by left | split; [done | by intros [[? ?] _]]]).
  all: remember (trim (hd [] (split comma (c2 :: v2)))) as entry eqn:Hentry;
    destruct entry as [|t ts]; cbn [first_nonempty].
  all: try (split; [by right|]; split; [|done]; intros _; split; [done|];
            exists (c2 :: v2); by rewrite <- Hentry).
  all: split; [by left|]; split; [done|];
    intros (_ & v & [= <-] & Hv); rewrite <- Hentry in Hv; done.
Qed.

End IdentityProofs.

(** * Properties of the feedback lists *)

Module FeedbackProofs.
Import Feedback.

(** The line filter reads the expression [/^\d+\.?\s/] correctly: a line
    matches exactly when it starts with one or more digits, then perhaps a
    dot, then a white-space character. *)
Lemma digit_not_space c : is_digit c = true → is_space c = false.
Proof.
  unfold is_digit, is_space. intros Hd.
  apply andb_true_iff in Hd as [Hlo Hhi].
  apply N.leb_le in Hlo, Hhi.
  repeat match goal with
         | |- context [(?a <=? ?b)%N] => destruct (N.leb_spec a b)
         | |- context [(?a =? ?b)%N] => destruct (N.eqb_spec a b)
         end; simpl; try reflexivity; lia.
Qed.

Lemma digit_not_dot c : is_digit c = true → (c =? dot)%N = false.
Proof.
  unfold is_digit, dot. intros Hd.
  apply andb_true_iff in Hd as [Hlo Hhi].
  apply N.leb_le in Hlo, Hhi. apply N.eqb_neq. lia.
Qed.

Lemma after_digit_sound s :
  after_digit s = true →
  ∃ ds c rest,
    Forall (fun d => is_digit d = true) ds ∧ is_space c = true ∧
    (s = ds ++ c :: rest ∨ s = ds ++ dot :: c :: rest).
Proof.
  induction s as [|c s IH]; simpl; [done|].
  destruct (is_digit c) eqn:Hd.
  - intros (ds & w & rest & Hds & Hw & Hs)%IH.
    exists (c :: ds), w, rest. split; [by constructor|]. split; [done|].
    destruct Hs as [-> | ->]; auto.
  - destruct (N.eqb_spec c dot) as [->|Hne].
    + destruct s as [|w rest]; [done|]. intros Hw.
      exists [], w, rest. auto.
    + intros Hw. exists [], c, s. auto.
Qed.

Lemma after_digit_complete ds c rest :
  Forall (fun d => is_digit d = true) ds → is_space c = true →
  after_digit (ds ++ c :: rest) = true ∧
  after_digit (ds ++ dot :: c :: rest) = true.
Proof.
  intros Hds Hc. induction Hds as [|d ds Hd _ IH]; simpl.
  - destruct (is_digit c) eqn:Hdc.
    { apply digit_not_space in Hdc. congruence. }
    rewrite Hc. destruct (c =? dot)%N eqn:Hdot; [|done].
    apply N.eqb_eq in Hdot. subst c. by vm_compute in Hc.
  - by rewrite Hd.
Qed.

Lemma matches_numbering_spec line :
  matches_numbering line = true
  ↔ ∃ d ds c rest,
      is_digit d = true ∧ Forall (fun x => is_digit x = true) ds ∧
      is_space c = true ∧
      (line = d :: ds ++ c :: rest ∨ line = d :: ds ++ dot :: c :: rest).
Proof.
  split.
  - destruct line as [|d s]; simpl; [done|].
    intros [Hd (ds & c & rest & Hds & Hc & Hs)%after_digit_sound]%andb_true_iff.
    exists d, ds, c, rest. repeat split; try done.
    destruct Hs as [-> | ->]; auto.
  - intros (d & ds & c & rest & Hd & Hds & Hc & Hline).
    destruct (after_digit_complete ds c rest Hds Hc) as [H1 H2].
    destruct Hline as [-> | ->]; simpl; rewrite Hd; simpl; done.
Qed.

(** The scenario of a numbered answer: numbered and blank lines go, the
    first three of the others stay, trimmed. *)
Example parse_drops_numbering :
  parseTextToArray
    (str "  clear name " ++ [newline] ++ str "1. numbered" ++ [newline]
     ++ [newline] ++ str "simple" ++ [newline] ++ str "fun" ++ [newline]
     ++ str "a fourth line")
  = [str "clear name"; str "simple"; str "fun"].
Proof. vm_compute. reflexivity. Qed.

Lemma parseTextToArray_length text : (length (parseTextToArray text) ≤ 3)%nat.
Proof. unfold parseTextToArray. rewrite length_take. lia. Qed.

Lemma fallback_if_empty_length l canned :
  (length l ≤ 3)%nat →
  (1 ≤ length (fallback_if_empty l canned) ≤ 3)%nat.
Proof.
  unfold fallback_if_empty. intros Hl.
  destruct l as [|x l]; simpl in *; lia.
Qed.





End FeedbackProofs.

(** * Properties of the history helpers *)

Module HistoryProofs.
Import History.

Section WithJSON.
Context {number : Type} `{!JSON number} `{!StorageQuota}.

Lemma item_or_truthy raw otherwise :
  raw ≠ [] → item_or (Some raw) otherwise = raw.
Proof. by destruct raw. Qed.

(** What a save does when the stored text parses to an array: it comes
    down to the one write. *)
Lemma save_on_array (analysis : jsvalue number) b existing :
  JSON_parse (item_or (getItem STORAGE_KEY b) (str "[]"))
  = Normal (JArr existing) →
  saveToLocalStorage analysis b
  = if write_accepted (localStorage b) STORAGE_KEY
         (JSON_stringify (JArr (analysis :: take 9 existing)))
    then setItem STORAGE_KEY
           (JSON_stringify (JArr (analysis :: take 9 existing))) b
    else console_error "Failed to save to localStorage:"
           QuotaExceededError b.
Proof.
  unfold saveToLocalStorage, localStorage_setItem. intros ->. simpl.
  by destruct (write_accepted _ _ _).
Qed.

(** C9, amended: when the history key holds a list (or nothing, which is
    read as the empty list) and the storage accepts the write, saving an
    analysis stores the list that starts with the analysis and goes on with
    the first nine entries of the old list at most, a list that is newest
    first and has at most ten entries; when the storage refuses the write,
    nothing is stored: the old history stays and the failure is logged. *)
Theorem save_prepends_and_caps (analysis : jsvalue number) b existing :
  JSON_parse (item_or (getItem STORAGE_KEY b) (str "[]"))
  = Normal (JArr existing) →
  (write_accepted (localStorage b) STORAGE_KEY
     (JSON_stringify (JArr (analysis :: take 9 existing))) = true →
   getItem STORAGE_KEY (saveToLocalStorage analysis b)
   = Some (JSON_stringify (JArr (analysis :: take 9 existing)))) ∧
  (write_accepted (localStorage b) STORAGE_KEY
     (JSON_stringify (JArr (analysis :: take 9 existing))) = false →
   saveToLocalStorage analysis b
   = console_error "Failed to save to localStorage:" QuotaExceededError b) ∧
  (length (analysis :: take 9 existing) ≤ 10)%nat ∧
  (length existing ≤ 9 →
   take 9 existing = existing)%nat ∧
  (∀ i, (i < 9)%nat →
        (analysis :: take 9 existing) !! S i = existing !! i).
Proof.
  intros Hparse. rewrite (save_on_array _ _ _ Hparse).
  split; [|split; [|split; [|split]]].
  - intros ->. unfold getItem, setItem. simpl. by rewrite lookup_insert_eq.
  - by intros ->.
  - simpl. rewrite length_take. lia.
  - intros Hshort. by apply take_ge.
  - intros i Hi. simpl. by apply lookup_take_lt.
Qed.

(** C10: when the text stored under the history key does not parse,
    [getFromLocalStorage] returns the empty list: the exception is caught
    and logged, it never reaches the caller, and the storage is left
    alone. *)
Theorem malformed_history_reads_empty b raw e :
  getItem STORAGE_KEY b = Some raw →
  JSON_parse raw = Throw e →
  (getFromLocalStorage b).1 = JArr [] ∧
  localStorage (getFromLocalStorage b).2 = localStorage b.
Proof.
  intros Hraw Hthrow. unfold getFromLocalStorage. rewrite Hraw.
  destruct raw as [|c raw].
  - simpl. by rewrite JSON_parse_empty_array.
  - rewrite item_or_truthy by done. by rewrite Hthrow.
Qed.

End WithJSON.

Import MiniJSON.

Example long_history_parses :
  JSON_parse (JSON_stringify (JArr long_history)) = Normal (JArr long_history).
Proof. vm_compute. reflexivity. Qed.

Lemma save_prepends_and_caps_witness :
  getItem STORAGE_KEY
    (saveToLocalStorage new_analysis browser_with_long_history)
  = Some (JSON_stringify
            (JArr (new_analysis :: take 9 long_history))).
Proof.
  refine (proj1 (save_prepends_and_caps new_analysis
                   browser_with_long_history long_history _) _).
  - vm_compute. reflexivity.
  - vm_compute. reflexivity.
Defined.

(** C9, as stated, fails: in a storage with room for 64 code units, which
    holds the history of eleven entries, the write of the new list is
    refused; the history key keeps the old list and not the list headed by
    the new analysis. *)
Lemma save_refused_keeps_old_history :
  (stored_units (localStorage browser_with_long_history) <=? 64)%N = true ∧
  JSON_parse (item_or (getItem STORAGE_KEY browser_with_long_history)
                (str "[]"))
  = Normal (JArr long_history) ∧
  getItem STORAGE_KEY
    (@saveToLocalStorage Z mini_json (room_for 64) new_analysis
       browser_with_long_history)
  = Some (JSON_stringify (JArr long_history)) ∧
  getItem STORAGE_KEY
    (@saveToLocalStorage Z mini_json (room_for 64) new_analysis
       browser_with_long_history)
  ≠ Some (JSON_stringify (JArr (new_analysis :: take 9 long_history))).
Proof.
  vm_compute. repeat split. intros H. discriminate H.
Qed.

Lemma malformed_history_reads_empty_witness :
  (getFromLocalStorage browser_with_broken_history).1 = JArr [] ∧
  localStorage (getFromLocalStorage browser_with_broken_history).2
  = localStorage browser_with_broken_history.
Proof.
  apply (malformed_history_reads_empty browser_with_broken_history
           (str "[{broken") SyntaxError).
  - vm_compute. reflexivity.
  - vm_compute. reflexivity.
Defined.

End HistoryProofs.

(** * Further properties of the rate limiter *)

Module WindowProofs.
Import RateLimit RateLimitProofs.

Lemma run_app (calls1 calls2 : list call) (s : store) :
  run (calls1 ++ calls2) s
  = ((run calls1 s).1 ++ (run calls2 (run calls1 s).2).1,
     (run calls2 (run calls1 s).2).2).
Proof.
  revert s. induction calls1 as [|[k now] calls1 IH]; intros s.
  - simpl. by destruct (run calls2 s).
  - rewrite <- app_comm_cons, !run_cons, IH. done.
Qed.

(** After a call the identity has an entry, whatever the branch. *)
Lemma check_entry now (key : jsstring) (s : store) :
  ∃ e, (checkRateLimit now key s).2 !! key = Some e ∧
       res_resetTime (checkRateLimit now key s).1 = resetTime e ∧
       now ≤ resetTime e.
Proof.
  unfold checkRateLimit, RATE_LIMIT_WINDOW.
  destruct (s !! key) as [cur|] eqn:Hkey; simpl.
  - split_tests; simpl.
    + eexists. rewrite lookup_insert_eq. split; [done|]. simpl. lia.
    + exists cur. auto.
    + eexists. rewrite lookup_insert_eq. split; [done|]. simpl. lia.
  - eexists. rewrite lookup_insert_eq. split; [done|]. simpl. lia.
Qed.

(** A call is denied exactly when the identity's entry is live and full. *)
Lemma denied_iff now (key : jsstring) (s : store) :
  allowed (checkRateLimit now key s).1 = false
  ↔ ∃ e, s !! key = Some e ∧ now ≤ resetTime e ∧ RATE_LIMIT ≤ count e.
Proof.
  unfold checkRateLimit, RATE_LIMIT.
  destruct (s !! key) as [cur|]; simpl.
  - split_tests; simpl; split; try done.
    + intros (e & [= <-] & ? & ?). lia.
    + intros _. exists cur. auto.
    + intros (e & [= <-] & ? & ?). lia.
  - split; [done | by intros (e & ? & _)].
Qed.

Lemma unchanged_iff_denied now (key : jsstring) (s : store) :
  (checkRateLimit now key s).2 = s
  ↔ allowed (checkRateLimit now key s).1 = false.
Proof.
  unfold checkRateLimit, RATE_LIMIT, RATE_LIMIT_WINDOW.
  destruct (s !! key) as [cur|] eqn:Hkey; simpl.
  - split_tests; simpl; split; try done.
    + intros Hsame. apply (f_equal (fun m : store => m !! key)) in Hsame.
      rewrite lookup_insert_eq, Hkey in Hsame.
      injection Hsame as <-. simpl in *. lia.
    + intros Hsame. apply (f_equal (fun m : store => m !! key)) in Hsame.
      rewrite lookup_insert_eq, Hkey in Hsame.
      injection Hsame as Hsame. destruct cur as [c r]. simpl in *.
      injection Hsame as Hc. lia.
  - split; [|done].
    intros Hsame. apply (f_equal (fun m : store => m !! key)) in Hsame.
    by rewrite lookup_insert_eq, Hkey in Hsame.
Qed.

(** X1: the store changes exactly when the request is allowed; a request
    is denied exactly when its identity's entry is live and at the limit. *)
Theorem store_changes_iff_allowed now (key : jsstring) (s : store) :
  ((checkRateLimit now key s).2 = s
   ↔ allowed (checkRateLimit now key s).1 = false) ∧
  (allowed (checkRateLimit now key s).1 = false
   ↔ ∃ e, s !! key = Some e ∧ now ≤ resetTime e ∧ 10 ≤ count e).
Proof. split; [apply unchanged_iff_denied | apply denied_iff]. Qed.

(** The results inside an open window, for any number of requests: the
    room that is left is used up, and everything after that is denied. *)
Lemma run_window (key : jsstring) ts : ∀ (s : store) c reset,
  s !! key = Some (Entry c reset) →
  Forall (fun t => t ≤ reset) ts →
  (run ((fun t => (key, t)) <$> ts) s).1
  = countdown reset (10 - (c + 1))
      (Nat.min (length ts) (Z.to_nat (10 - c)))
    ++ replicate (length ts - Z.to_nat (10 - c)) (Result false reset 0).
Proof.
  induction ts as [|t ts IH]; intros s c reset Hkey Hts; [done|].
  apply Forall_cons in Hts as [Ht Hts].
  rewrite fmap_cons, run_cons.
  destruct (Z.lt_ge_cases c 10) as [Hroom|Hfull].
  - rewrite (check_counted t key s _ Hkey); simpl in *; [|lia..].
    rewrite (IH _ (c + 1) reset); [| by rewrite lookup_insert_eq | done].
    replace (Z.to_nat (10 - c)) with (S (Z.to_nat (10 - (c + 1)))) by lia.
    simpl. do 3 f_equal. lia.
  - rewrite (check_denied t key s _ Hkey); simpl in *; [|lia..].
    rewrite (IH _ c reset Hkey Hts).
    replace (Z.to_nat (10 - c)) with 0%nat by lia.
    rewrite !Nat.min_0_r, !Nat.sub_0_r. done.
Qed.

Lemma countdown_all_allowed reset from n :
  length (List.filter allowed (countdown reset from n)) = n.
Proof. revert from. induction n as [|n IH]; intros from; simpl; auto. Qed.

Lemma denials_none_allowed reset n :
  List.filter allowed (replicate n (Result false reset 0)) = [].
Proof. induction n as [|n IH]; simpl; auto. Qed.

Lemma calls_of_shape (key : jsstring) (calls : list call) :
  calls_of key calls = (fun t => (key, t)) <$> (snd <$> calls_of key calls).
Proof.
  unfold calls_of. induction calls as [|[k t] calls IH]; [done|].
  rewrite filter_cons. simpl. destruct (decide (k = key)) as [->|Hne].
  - rewrite !fmap_cons. simpl. f_equal. exact IH.
  - exact IH.
Qed.

(** X2: the fixed-window bound.  While an identity's window is open, a run
    of requests (those of other identities interleaved at will) allows at
    most [10 - count] of its requests, however many it sends. *)
Theorem at_most_limit_per_window (key : jsstring) (calls : list call)
    (s : store) e :
  s !! key = Some e →
  Forall (fun c => c.1 = key → c.2 ≤ resetTime e) calls →
  (length (List.filter allowed (results_for key calls s))
   ≤ Z.to_nat (RATE_LIMIT - count e))%nat.
Proof.
  intros Hkey Htimes. destruct e as [c reset]. simpl in *.
  rewrite (results_for_alone key calls s s eq_refl), calls_of_shape.
  rewrite (run_window key _ s c reset Hkey).
  - rewrite List.filter_app, denials_none_allowed, app_nil_r.
    rewrite countdown_all_allowed. unfold RATE_LIMIT. lia.
  - rewrite Forall_fmap. apply Forall_forall. intros [k t] Hin. simpl.
    unfold calls_of in Hin. apply list_elem_of_filter in Hin as [Hk Hin].
    simpl in Hk. rewrite Forall_forall in Htimes.
    by apply (Htimes (k, t)).
Qed.

Lemma at_most_limit_per_window_witness :
  (length (List.filter allowed
     (results_for (str "1.2.3.4")
        ((fun t => (str "1.2.3.4", t)) <$> replicate 25 700%Z)
        {[ str "1.2.3.4" := Entry 4%Z 1000%Z ]}))
   ≤ Z.to_nat (RATE_LIMIT - count (Entry 4 1000)))%nat.
Proof.
  apply (at_most_limit_per_window (str "1.2.3.4") _
           {[ str "1.2.3.4" := Entry 4 1000 ]} (Entry 4 1000)).
  - reflexivity.
  - simpl. repeat constructor; simpl; lia.
Defined.

(** X3: from a closed window on, any number of requests of one identity
    inside the new window: the first ten are allowed with [remaining] 9 down
    to 0, and the eleventh and all later ones are denied with the window's
    reset time. *)
Theorem window_allows_ten_then_denies (key : jsstring) (s : store) t0 ts :
  window_closed t0 key s →
  Forall (fun t => t ≤ t0 + 1000) ts →
  (run ((fun t => (key, t)) <$> t0 :: ts) s).1
  = countdown (t0 + 1000) 9 (Nat.min (S (length ts)) 10)
    ++ replicate (S (length ts) - 10) (Result false (t0 + 1000) 0).
Proof.
  intros Hclosed Hts.
  rewrite fmap_cons, run_cons, (check_fresh _ _ _ Hclosed). cbn [fst snd].
  rewrite (run_window key ts _ 1 (t0 + 1000));
    [| by rewrite lookup_insert_eq | done].
  change (Z.to_nat (10 - 1)) with 9%nat.
  change (Nat.min (S (length ts)) 10) with (S (Nat.min (length ts) 9)).
  done.
Qed.

Lemma window_allows_ten_then_denies_witness :
  (run ((fun t => (str "1.2.3.4", t)) <$> 0 :: replicate 11 500) ∅).1
  = countdown (0 + 1000) 9 (Nat.min (S (length (replicate 11 500))) 10)
    ++ replicate (S (length (replicate 11 500)) - 10)
         (Result false (0 + 1000) 0).
Proof.
  apply (window_allows_ten_then_denies (str "1.2.3.4") ∅ 0
           (replicate 11 500)).
  - exact I.
  - simpl. repeat constructor; lia.
Defined.

(** Calls at readings inside an identity's window keep the window: the
    reset time stays, the count does not go down. *)
Lemma run_keeps_window (key : jsstring) (calls : list call) :
  ∀ (s : store) e,
  s !! key = Some e →
  Forall (fun c => c.1 = key → c.2 ≤ resetTime e) calls →
  ∃ e', (run calls s).2 !! key = Some e' ∧
        resetTime e' = resetTime e ∧ count e ≤ count e'.
Proof.
  induction calls as [|[k t] calls IH]; intros s e Hkey Htimes.
  - exists e. simpl. auto with lia.
  - apply Forall_cons in Htimes as [Ht Htimes]. simpl in Ht.
    rewrite run_cons. cbn [fst snd].
    destruct (decide (k = key)) as [->|Hne].
    + specialize (Ht eq_refl).
      destruct (Z.lt_ge_cases (count e) 10) as [Hroom|Hfull].
      * rewrite (check_counted t key s e Hkey Ht Hroom). cbn [fst snd].
        destruct (IH (<[key := Entry (count e + 1) (resetTime e)]> s)
                    (Entry (count e + 1) (resetTime e)))
          as (e' & He' & Hr & Hc); [by rewrite lookup_insert_eq | done |].
        exists e'. simpl in *. auto with lia.
      * rewrite (check_denied t key s e Hkey Ht Hfull). cbn [fst snd].
        by apply IH.
    + apply IH; [|done]. by rewrite check_frame.
Qed.

(** X4: retrying inside a window never postpones its end.  Whatever calls
    arrive while an identity's window is open (its own at readings up to
    the reset time, those of others at any time), the first request of the
    identity after the reset time is allowed with [remaining = 9]. *)
Theorem readmitted_after_reset (key : jsstring) (calls : list call)
    (s : store) e now :
  s !! key = Some e →
  Forall (fun c => c.1 = key → c.2 ≤ resetTime e) calls →
  resetTime e < now →
  (checkRateLimit now key (run calls s).2).1 = Result true (now + 1000) 9.
Proof.
  intros Hkey Htimes Hlate.
  destruct (run_keeps_window key calls s e Hkey Htimes)
    as (e' & He' & Hr & _).
  rewrite check_fresh; [done|].
  unfold window_closed. rewrite He'. lia.
Qed.

Lemma readmitted_after_reset_witness :
  (checkRateLimit 1001 (str "1.2.3.4")
     (run ((fun t => (str "1.2.3.4", t)) <$> replicate 30 1000)
        {[ str "1.2.3.4" := Entry 1 1000 ]}).2).1
  = Result true (1001 + 1000) 9.
Proof.
  apply (readmitted_after_reset (str "1.2.3.4") _ _ (Entry 1 1000)).
  - reflexivity.
  - simpl. repeat constructor; simpl; lia.
  - simpl. lia.
Defined.

(** The entry that [n] counted requests leave in an open window. *)
Lemma run_in_window_entry (key : jsstring) ts : ∀ (s : store) c reset,
  s !! key = Some (Entry c reset) →
  c + Z.of_nat (length ts) ≤ 10 →
  Forall (fun t => t ≤ reset) ts →
  (run ((fun t => (key, t)) <$> ts) s).2 !! key
  = Some (Entry (c + Z.of_nat (length ts)) reset).
Proof.
  induction ts as [|t ts IH]; intros s c reset Hkey Hroom Hts.
  - simpl. rewrite Hkey. do 2 f_equal. lia.
  - apply Forall_cons in Hts as [Ht Hts].
    rewrite fmap_cons, run_cons. cbn [fst snd].
    rewrite (check_counted t key s _ Hkey); simpl in *; [|lia..].
    rewrite (IH _ (c + 1) reset); [| by rewrite lookup_insert_eq | lia | done].
    do 2 f_equal. lia.
Qed.

(** X5: the burst at a window boundary.  Ten requests in one window (the
    first opening it) followed by ten in the next (the first of them after
    the reset time) are all allowed, however close the two groups are in
    time. *)
Theorem twenty_allowed_across_boundary (key : jsstring) (s : store)
    t0 ts1 t1 ts2 :
  window_closed t0 key s →
  length ts1 = 9%nat → Forall (fun t => t ≤ t0 + 1000) ts1 →
  t0 + 1000 < t1 →
  length ts2 = 9%nat → Forall (fun t => t ≤ t1 + 1000) ts2 →
  (run ((fun t => (key, t)) <$> (t0 :: ts1) ++ (t1 :: ts2)) s).1
  = countdown (t0 + 1000) 9 10 ++ countdown (t1 + 1000) 9 10.
Proof.
  intros Hclosed Hlen1 Hts1 Hnext Hlen2 Hts2.
  rewrite fmap_app, run_app. cbn [fst snd].
  rewrite !fmap_cons, !run_cons. cbn [fst snd].
  rewrite (check_fresh _ _ _ Hclosed). cbn [fst snd].
  set (s1 := <[key := Entry 1 (t0 + 1000)]> s).
  assert (s1 !! key = Some (Entry 1 (t0 + 1000))) as Hs1
    by (unfold s1; by rewrite lookup_insert_eq).
  rewrite (run_in_window key ts1 s1 1 (t0 + 1000) Hs1); [| lia | done].
  pose proof (run_in_window_entry key ts1 s1 1 (t0 + 1000) Hs1) as Hend.
  rewrite Hlen1 in Hend. specialize (Hend ltac:(lia) Hts1).
  set (s2 := (run ((fun t => (key, t)) <$> ts1) s1).2) in *.
  assert (window_closed t1 key s2) as Hclosed2.
  { unfold window_closed. rewrite Hend. simpl. lia. }
  rewrite (check_fresh _ _ _ Hclosed2). cbn [fst snd].
  rewrite (run_in_window key ts2 _ 1 (t1 + 1000));
    [| by rewrite lookup_insert_eq | lia | done].
  by rewrite Hlen1, Hlen2.
Qed.

Lemma twenty_allowed_across_boundary_witness :
  (run ((fun t => (str "1.2.3.4", t))
          <$> (0 :: replicate 9 1000) ++ (1001 :: replicate 9 1001)) ∅).1
  = countdown (0 + 1000) 9 10 ++ countdown (1001 + 1000) 9 10.
Proof.
  apply (twenty_allowed_across_boundary (str "1.2.3.4") ∅ 0
           (replicate 9 1000) 1001 (replicate 9 1001)).
  - exact I.
  - reflexivity.
  - simpl. repeat constructor; lia.
  - lia.
  - reflexivity.
  - simpl. repeat constructor; lia.
Defined.

(** X6: identities never seen before are never denied.  If the identities
    of a run are pairwise distinct and none has an entry, every request is
    allowed with [remaining = 9]. *)
Theorem fresh_identities_all_allowed (calls : list call) (s : store) :
  NoDup (fst <$> calls) →
  Forall (fun c => s !! c.1 = None) calls →
  (run calls s).1 = (fun c => Result true (c.2 + 1000) 9) <$> calls.
Proof.
  revert s. induction calls as [|[k t] calls IH]; intros s Hdup Hnew; [done|].
  rewrite fmap_cons in Hdup. apply NoDup_cons in Hdup as [Hk Hdup].
  apply Forall_cons in Hnew as [Hknew Hnew]. simpl in Hknew.
  rewrite run_cons, fmap_cons. simpl.
  rewrite check_fresh by (unfold window_closed; by rewrite Hknew).
  simpl. f_equal. apply IH; [done|].
  apply Forall_forall. intros [k' t'] Hin. simpl.
  rewrite Forall_forall in Hnew. specialize (Hnew _ Hin). simpl in Hnew.
  rewrite lookup_insert_ne; [done|].
  intros ->. apply Hk. apply list_elem_of_fmap. by exists (k', t').
Qed.

Lemma fresh_identities_all_allowed_witness :
  (run [(str "a", 0); (str "b", 0); (str "c", 0)]
       {[ str "1.2.3.4" := Entry 10 1000 ]}).1
  = (fun c => Result true (c.2 + 1000) 9)
      <$> [(str "a", 0); (str "b", 0); (str "c", 0)].
Proof.
  apply (fresh_identities_all_allowed
           [(str "a", 0); (str "b", 0); (str "c", 0)]
           {[ str "1.2.3.4" := Entry 10 1000 ]}).
  - apply (bool_decide_unpack _). vm_compute. exact I.
  - repeat constructor.
Defined.

Lemma reachable_reset_bound t (s : store) :
  reachable t s →
  ∀ (key : jsstring) e, s !! key = Some e → resetTime e ≤ t + 1000.
Proof.
  induction 1 as [t|t s now k _ IH Hle]; intros key e.
  - by rewrite lookup_empty.
  - destruct (decide (k = key)) as [->|Hne].
    + unfold checkRateLimit, RATE_LIMIT_WINDOW.
      destruct (s !! key) as [cur|] eqn:Hkey; simpl.
      * pose proof (IH _ _ Hkey).
        split_tests; simpl; rewrite ?lookup_insert_eq, ?Hkey;
          intros [= <-]; simpl; lia.
      * rewrite lookup_insert_eq. intros [= <-]. simpl. lia.
    + rewrite check_frame by done. intros Hkey.
      pose proof (IH _ _ Hkey). lia.
Qed.

(** A run at readings that do not go down stays within the reachable
    stores. *)
Lemma run_reachable (calls : list call) : ∀ t (s : store),
  reachable t s → nondecreasing_from t calls →
  reachable (last_reading t calls) (run calls s).2.
Proof.
  induction calls as [|[k now] calls IH]; intros t s Hreach Htimes; [done|].
  destruct Htimes as [Hle Htimes]. rewrite run_cons. cbn [snd last_reading].
  apply IH; [|done]. by apply (reach_call t).
Qed.

(** X7: with a clock that does not run backwards no window ends more than
    a window length after the latest reading: every stored reset time is at
    most [t + 1000], so a request denied at [now >= t] is told a reset time
    between [now] and [now + 1000]. *)
Theorem reset_within_one_window t (s : store) :
  reachable t s →
  (∀ (key : jsstring) e, s !! key = Some e → resetTime e ≤ t + 1000) ∧
  (∀ now (key : jsstring), t ≤ now →
     allowed (checkRateLimit now key s).1 = false →
     now ≤ res_resetTime (checkRateLimit now key s).1 ≤ now + 1000).
Proof.
  intros Hreach. pose proof (reachable_reset_bound t s Hreach) as Hinv.
  split; [exact Hinv|].
  intros now key Hnow Hdenied.
  apply denied_iff in Hdenied as (e & Hkey & Hlive & Hfull).
  unfold RATE_LIMIT in Hfull.
  rewrite (check_denied now key s e Hkey Hlive Hfull). simpl.
  pose proof (Hinv _ _ Hkey). lia.
Qed.

Lemma reset_within_one_window_witness :
  (∀ (key : jsstring) e,
     (checkRateLimit 5 (str "1.2.3.4") ∅).2 !! key = Some e →
     resetTime e ≤ 5 + 1000) ∧
  (∀ now (key : jsstring), 5 ≤ now →
     allowed (checkRateLimit now key
                (checkRateLimit 5 (str "1.2.3.4") ∅).2).1 = false →
     now ≤ res_resetTime (checkRateLimit now key
                            (checkRateLimit 5 (str "1.2.3.4") ∅).2).1
         ≤ now + 1000).
Proof.
  apply (reset_within_one_window 5).
  apply (reach_call 0); [apply reach_empty | lia].
Defined.

(** ** The sweep and later requests *)

(** Result and own entry of a check are the same with and without an
    earlier sweep. *)
Lemma check_after_sweep now now' (key : jsstring) (s : store) :
  now ≤ now' →
  (checkRateLimit now' key (sweep now s)).1 = (checkRateLimit now' key s).1 ∧
  (checkRateLimit now' key (sweep now s)).2 !! key
  = (checkRateLimit now' key s).2 !! key.
Proof.
  intros Hlater.
  destruct (s !! key) as [cur|] eqn:Hkey.
  - destruct (Z.gtb_spec now (resetTime cur)) as [Hpast|Hlive].
    + assert (sweep now s !! key = None) as Hgone.
      { rewrite sweep_lookup, Hkey.
        destruct (Z.gtb_spec now (resetTime cur)); [done | lia]. }
      rewrite !check_fresh.
      * cbn [fst snd]. by rewrite !lookup_insert_eq.
      * unfold window_closed. rewrite Hkey. lia.
      * unfold window_closed. by rewrite Hgone.
    + apply check_local. rewrite sweep_lookup, Hkey.
      destruct (Z.gtb_spec now (resetTime cur)); [lia | done].
  - apply check_local. by rewrite sweep_lookup, Hkey.
Qed.

(** X8: a sweep is invisible to the requests that follow it.  For a
    request at a reading not before the sweep's, checking after the sweep
    gives the same result as checking without it, and the store it leaves is
    the swept version of the store left without it. *)
Theorem sweep_commutes_with_later_check now now' (key : jsstring)
    (s : store) :
  now ≤ now' →
  checkRateLimit now' key (sweep now s)
  = ((checkRateLimit now' key s).1, sweep now (checkRateLimit now' key s).2).
Proof.
  intros Hlater.
  destruct (check_after_sweep now now' key s Hlater) as [Hres Hown].
  rewrite (surjective_pairing (checkRateLimit now' key (sweep now s))).
  f_equal; [exact Hres|].
  apply map_eq. intros k. rewrite (sweep_lookup now _ k).
  destruct (decide (key = k)) as [<-|Hne].
  - rewrite Hown.
    destruct (check_entry now' key s) as (e & -> & _ & Hlive).
    destruct (Z.gtb_spec now (resetTime e)); [lia | done].
  - rewrite !check_frame by done. by rewrite sweep_lookup.
Qed.

Lemma sweep_commutes_with_later_check_witness :
  checkRateLimit 60500 (str "1.2.3.4")
    (sweep 60000 {[ str "1.2.3.4" := Entry 7 1000;
                    str "5.6.7.8" := Entry 2 60400 ]})
  = ((checkRateLimit 60500 (str "1.2.3.4")
        {[ str "1.2.3.4" := Entry 7 1000;
           str "5.6.7.8" := Entry 2 60400 ]}).1,
     sweep 60000
       (checkRateLimit 60500 (str "1.2.3.4")
          {[ str "1.2.3.4" := Entry 7 1000;
             str "5.6.7.8" := Entry 2 60400 ]}).2).
Proof.
  apply (sweep_commutes_with_later_check 60000 60500). lia.
Defined.

(** X9: sweeps compose: a sweep after a sweep is the sweep at the later of
    the two readings; in particular sweeping twice at one reading is
    sweeping once. *)
Theorem sweep_sweep now1 now2 (s : store) :
  sweep now2 (sweep now1 s) = sweep (Z.max now1 now2) s.
Proof.
  apply map_eq. intros k. rewrite !sweep_lookup.
  destruct (s !! k) as [e|]; [|done].
  destruct (Z.gtb_spec now1 (resetTime e));
    destruct (Z.gtb_spec (Z.max now1 now2) (resetTime e));
    try done; try lia.
  all: destruct (Z.gtb_spec now2 (resetTime e)); try done; lia.
Qed.

End WindowProofs.

(** * Further properties of the identity resolution *)

Module HeaderProofs.
Import RateLimit.

(** ** What [trim] leaves *)

Lemma trimStart_suffix s : ∃ pre, s = pre ++ trimStart s.
Proof.
  induction s as [|c s [pre IH]]; [by exists []|]. simpl.
  destruct (is_space c); [|by exists []].
  exists (c :: pre). simpl. by f_equal.
Qed.

Lemma trimStart_head s c : head (trimStart s) = Some c → is_space c = false.
Proof.
  induction s as [|d s IH]; simpl; [done|].
  destruct (is_space d) eqn:Hd; [done|]. by intros [= <-].
Qed.

Lemma trimEnd_prefix s : ∃ post, s = trimEnd s ++ post.
Proof.
  unfold trimEnd. destruct (trimStart_suffix (rev s)) as [pre Hpre].
  exists (rev pre).
  rewrite <- (rev_involutive s) at 1. rewrite Hpre at 1.
  by rewrite rev_app_distr.
Qed.

Lemma last_rev {A} (l : list A) : last (rev l) = head l.
Proof. destruct l as [|x l]; [done|]. simpl. apply last_snoc. Qed.

Lemma trim_last s c : last (trim s) = Some c → is_space c = false.
Proof. unfold trim, trimEnd. rewrite last_rev. apply trimStart_head. Qed.

Lemma trim_head s c : head (trim s) = Some c → is_space c = false.
Proof.
  unfold trim. destruct (trimEnd_prefix (trimStart s)) as [post Hpost].
  intros Hhead. apply (trimStart_head s). rewrite Hpost.
  destruct (trimEnd (trimStart s)); [done|]. exact Hhead.
Qed.

Lemma trim_Forall (P : N → Prop) s : Forall P s → Forall P (trim s).
Proof.
  unfold trim. intros Hs.
  destruct (trimStart_suffix s) as [pre Hpre].
  destruct (trimEnd_prefix (trimStart s)) as [post Hpost].
  rewrite Hpre, Hpost in Hs.
  by apply Forall_app in Hs as [_ [Hs _]%Forall_app].
Qed.

(** A string that is white space only trims to the empty string, and only
    such a string does. *)
Lemma trimStart_nil s : trimStart s = [] ↔ Forall (fun c => is_space c = true) s.
Proof.
  induction s as [|c s IH]; simpl; [by split; [constructor|]|].
  destruct (is_space c) eqn:Hc.
  - rewrite IH. split; [by constructor | by inversion 1].
  - split; [done | inversion 1; congruence].
Qed.

Lemma trim_nil s : trim s = [] ↔ Forall (fun c => is_space c = true) s.
Proof.
  unfold trim, trimEnd. split.
  - intros Hnil. apply trimStart_nil.
    apply (f_equal (@rev N)) in Hnil. rewrite rev_involutive in Hnil.
    simpl in Hnil. apply trimStart_nil in Hnil.
    destruct (trimStart s) as [|c t] eqn:Hstart; [done|].
    pose proof (trimStart_head s c) as Hc. rewrite Hstart in Hc.
    specialize (Hc eq_refl).
    rewrite Forall_forall in Hnil.
    rewrite (Hnil c) in Hc; [done|].
    apply list_elem_of_In, in_rev. rewrite rev_involutive. by left.
  - intros Hs. apply trimStart_nil in Hs. by rewrite Hs.
Qed.

(** X10: only the four identity headers matter: setting or removing any
    other header of a request leaves the resolved identity as it is. *)
Theorem other_headers_do_not_matter (request : NextRequest)
    (name value : jsstring) :
  name ∉ identity_headers →
  getRateLimitKey {| headers := <[name := value]> (headers request) |}
  = getRateLimitKey request ∧
  getRateLimitKey {| headers := delete name (headers request) |}
  = getRateLimitKey request.
Proof.
  intros Hother. unfold identity_headers in Hother.
  rewrite !not_elem_of_cons in Hother.
  destruct Hother as (H1 & H2 & H3 & H4 & _).
  unfold getRateLimitKey, headers_get. cbn [headers].
  by rewrite !lookup_insert_ne, !lookup_delete_ne by done.
Qed.

Lemma other_headers_do_not_matter_witness :
  getRateLimitKey
    {| headers := <[str "user-agent" := str "curl/8"]>
                    (headers empty_first_entry_request) |}
  = getRateLimitKey empty_first_entry_request ∧
  getRateLimitKey
    {| headers := delete (str "user-agent")
                    (headers empty_first_entry_request) |}
  = getRateLimitKey empty_first_entry_request.
Proof.
  apply (other_headers_do_not_matter empty_first_entry_request
           (str "user-agent") (str "curl/8")).
  apply (bool_decide_unpack _). vm_compute. exact I.
Defined.

(** X11: the limiter believes the client.  Whatever else a request
    carries, a non-empty cf-connecting-ip header value is the identity, so a
    sender picks its identity at will. *)
Theorem cf_connecting_ip_overrides (request : NextRequest)
    (value : jsstring) :
  value ≠ [] →
  getRateLimitKey
    {| headers := <[str "cf-connecting-ip" := value]> (headers request) |}
  = value.
Proof.
  intros Hvalue. unfold getRateLimitKey, headers_get. cbn [headers].
  rewrite lookup_insert_eq. unfold if_truthy at 1.
  by destruct value.
Qed.

Lemma cf_connecting_ip_overrides_witness :
  getRateLimitKey
    {| headers := <[str "cf-connecting-ip" := str "anything"]>
                    (headers empty_first_entry_request) |}
  = str "anything".
Proof.
  apply (cf_connecting_ip_overrides empty_first_entry_request
           (str "anything")).
  intros Heq. vm_compute in Heq. discriminate Heq.
Defined.

(** X12: an identity taken from the forwarded-for header holds no comma and
    neither starts nor ends with white space; it is empty exactly when the
    text before the first comma is blank. *)
Theorem forwarded_identity_is_one_trimmed_entry (request : NextRequest) :
  forwarded_in_force request →
  Forall (fun c => c ≠ comma) (getRateLimitKey request) ∧
  (∀ c, head (getRateLimitKey request) = Some c → is_space c = false) ∧
  (∀ c, last (getRateLimitKey request) = Some c → is_space c = false) ∧
  (getRateLimitKey request = []
   ↔ ∃ v, headers_get request "x-forwarded-for" = Some v ∧
          Forall (fun c => is_space c = true) (hd [] (split comma v))).
Proof.
  unfold forwarded_in_force, getRateLimitKey, if_truthy.
  intros [Hcf Hxff].
  destruct (headers_get request "x-forwarded-for") as [[|c2 v2]|];
    simpl in Hxff; try done.
  destruct (headers_get request "cf-connecting-ip") as [[|c1 v1]|];
    simpl in Hcf; try done; cbn [truthy].
  all: repeat split;
    [ apply trim_Forall, IdentityProofs.first_piece_no_separator
    | apply trim_head
    | apply trim_last
    | intros Hnil; exists (c2 :: v2); split; [done | by apply trim_nil]
    | intros (v' & [= <-] & Hblank); by apply trim_nil ].
Qed.

Lemma forwarded_identity_is_one_trimmed_entry_witness :
  Forall (fun c => c ≠ comma) (getRateLimitKey empty_first_entry_request) ∧
  (∀ c, head (getRateLimitKey empty_first_entry_request) = Some c →
        is_space c = false) ∧
  (∀ c, last (getRateLimitKey empty_first_entry_request) = Some c →
        is_space c = false) ∧
  (getRateLimitKey empty_first_entry_request = []
   ↔ ∃ v, headers_get empty_first_entry_request "x-forwarded-for" = Some v ∧
          Forall (fun c => is_space c = true) (hd [] (split comma v))).
Proof.
  apply (forwarded_identity_is_one_trimmed_entry empty_first_entry_request).
  split; vm_compute; reflexivity.
Defined.

End HeaderProofs.

(** * Properties of the request handler *)

Module RouteProofs.
Import RateLimit RateLimitProofs Feedback Route.

Lemma ceil_div_1000_spec a : 1000 * (ceil_div_1000 a - 1) < a ≤ 1000 * ceil_div_1000 a.
Proof.
  unfold ceil_div_1000.
  pose proof (Z.div_mod (- a) 1000 ltac:(lia)).
  pose proof (Z.mod_pos_bound (- a) 1000 ltac:(lia)). lia.
Qed.

Section WithParseFloat.
Context {number : Type} (parseFloat : jsstring → number).

Lemma POST_denied now now2 request up (s : store) :
  allowed (checkRateLimit now (getRateLimitKey request) s).1 = false →
  POST parseFloat now now2 request up s
  = ({| status := 429;
        body := RateLimitedBody
                  (str "Rate limit exceeded. Too many requests.")
                  (ceil_div_1000
                     (res_resetTime
                        (checkRateLimit now (getRateLimitKey request) s).1
                      - now2));
        response_headers :=
          [ (str "X-RateLimit-Limit", toString RATE_LIMIT);
            (str "X-RateLimit-Remaining", str "0");
            (str "X-RateLimit-Reset",
               toString (res_resetTime
                 (checkRateLimit now (getRateLimitKey request) s).1));
            (str "Retry-After",
               toString (ceil_div_1000
                 (res_resetTime
                    (checkRateLimit now (getRateLimitKey request) s).1
                  - now2))) ] |},
      s, []).
Proof.
  intros Hdenied. unfold POST.
  pose proof (proj2 (WindowProofs.unchanged_iff_denied now
    (getRateLimitKey request) s) Hdenied) as Hsame.
  destruct (checkRateLimit now (getRateLimitKey request) s) as [r s'].
  simpl in *. rewrite Hdenied. simpl. by rewrite Hsame.
Qed.

Lemma POST_allowed now now2 request up (s : store) :
  allowed (checkRateLimit now (getRateLimitKey request) s).1 = true →
  let r := (checkRateLimit now (getRateLimitKey request) s).1 in
  let hs := [ (str "X-RateLimit-Limit", toString RATE_LIMIT);
              (str "X-RateLimit-Remaining", toString (remaining r));
              (str "X-RateLimit-Reset", toString (res_resetTime r)) ] in
  POST parseFloat now now2 request up s
  = match up with
    | Completed g =>
        ({| status := 200;
            body := ScoreBody
              {| nameScore := parse_score parseFloat (nameText g);
                 descriptionScore :=
                   parse_score parseFloat (descriptionText g);
                 monetizabilityScore :=
                   parse_score parseFloat (monetizabilityText g);
                 usefulnessScore := parse_score parseFloat (usefulnessText g);
                 funScore := parse_score parseFloat (funText g);
                 simplicityScore :=
                   parse_score parseFloat (simplicityText g) |}
              (build_feedback (strengthsText g) (improvementsText g)
                 (recommendationsText g) (overallText g));
            response_headers := hs |},
         (checkRateLimit now (getRateLimitKey request) s).2, [])
    | Rejected =>
        ({| status := 500;
            body := FailureBody
                      (str "Internal server error. Please try again later.");
            response_headers := hs |},
         (checkRateLimit now (getRateLimitKey request) s).2,
         [str "Error processing request:"])
    end.
Proof.
  intros Hallowed. unfold POST.
  destruct (checkRateLimit now (getRateLimitKey request) s) as [r s'].
  simpl in *. rewrite Hallowed. simpl. by destruct up.
Qed.

(** X13: the status of a response.  It is 429 exactly when the limiter
    denies the request, 200 exactly when the request is allowed and the
    awaits complete, and 500 exactly when it is allowed and one of them
    throws; nothing else occurs. *)
Theorem post_status now now2 request up (s : store) :
  let denied :=
    allowed (checkRateLimit now (getRateLimitKey request) s).1 = false in
  let rsp := (POST parseFloat now now2 request up s).1.1 in
  (status rsp = 429 ↔ denied) ∧
  (status rsp = 200 ↔ ¬ denied ∧ ∃ g, up = Completed g) ∧
  (status rsp = 500 ↔ ¬ denied ∧ up = Rejected) ∧
  (status rsp = 429 ∨ status rsp = 200 ∨ status rsp = 500).
Proof.
  cbn zeta.
  destruct (allowed (checkRateLimit now (getRateLimitKey request) s).1)
    eqn:Hallowed.
  - rewrite (POST_allowed _ _ _ _ _ Hallowed). cbn zeta.
    destruct up as [g|]; cbn [fst status].
    + repeat split; try done; eauto.
      * by intros [_ ?].
    + repeat split; try done; eauto.
      * by intros [_ [g ?]].
  - rewrite (POST_denied _ _ _ _ _ Hallowed). cbn [fst status].
    repeat split; try done; eauto.
    + by intros [? _].
    + by intros [? _].
Qed.

(** X14: a rate-limited request costs nothing: when the status is 429 the
    store is left as it was, nothing is logged, and the response is the same
    whatever the awaits would have returned. *)
Theorem rate_limited_post_is_inert now now2 request up (s : store) :
  status (POST parseFloat now now2 request up s).1.1 = 429 →
  (POST parseFloat now now2 request up s).1.2 = s ∧
  (POST parseFloat now now2 request up s).2 = [] ∧
  ∀ up', POST parseFloat now now2 request up' s
         = POST parseFloat now now2 request up s.
Proof.
  destruct (allowed (checkRateLimit now (getRateLimitKey request) s).1)
    eqn:Hallowed.
  - rewrite (POST_allowed _ _ _ _ _ Hallowed). cbn zeta.
    by destruct up.
  - intros _. rewrite !(POST_denied _ _ _ _ _ Hallowed). cbn [fst snd].
    repeat split. intros up'. by rewrite (POST_denied _ _ _ _ _ Hallowed).
Qed.

(** X15: the rate-limit headers report the request's own check.  On every
    response the limit header is "10", the reset header is the reset time
    of the entry that the check of this request left for the sender, and the
    remaining header is "0" on a 429 and ten minus the count of that entry
    otherwise.  The entry is the one of the check: a 200 or a 500 goes out
    after the awaits, when the store may hold something newer. *)
Theorem rate_limit_headers_report_the_check now now2 request up (s : store) :
  let rsp := (POST parseFloat now now2 request up s).1.1 in
  let hs := response_headers rsp in
  ∃ e, (checkRateLimit now (getRateLimitKey request) s).2
         !! getRateLimitKey request = Some e ∧
    header_of (str "X-RateLimit-Limit") hs = Some (str "10") ∧
    header_of (str "X-RateLimit-Reset") hs = Some (toString (resetTime e)) ∧
    header_of (str "X-RateLimit-Remaining") hs
    = Some (if decide (status rsp = 429) then str "0"
            else toString (10 - count e)).
Proof.
  cbn zeta.
  destruct (WindowProofs.check_entry now (getRateLimitKey request) s)
    as (e & He & Hreset & _).
  exists e. split; [exact He|].
  destruct (allowed (checkRateLimit now (getRateLimitKey request) s).1)
    eqn:Hallowed.
  - rewrite (POST_allowed _ _ _ _ _ Hallowed). cbn zeta.
    assert (remaining (checkRateLimit now (getRateLimitKey request) s).1
            = 10 - count e) as Hrem.
    { revert He Hallowed. unfold checkRateLimit, RATE_LIMIT.
      destruct (s !! getRateLimitKey request) as [cur|] eqn:Hkey; simpl.
      - split_tests; simpl; rewrite ?lookup_insert_eq;
          try done; by intros [= <-].
      - rewrite lookup_insert_eq. by intros [= <-]. }
    rewrite Hrem, Hreset.
    destruct up; cbn [fst snd status response_headers]; repeat split.
  - rewrite (POST_denied _ _ _ _ _ Hallowed).
    cbn [fst snd status response_headers].
    rewrite Hreset. repeat split.
Qed.

(** X16: how long a denied sender is told to wait.  With a clock that
    does not run backwards, the [retryAfter] of a 429 is at most one second;
    it is one second exactly while the window is still open at the second
    clock reading, and zero or less from the reset time on. *)
Theorem retry_after_at_most_one t now now2 request up (s : store) msg r :
  reachable t s → t ≤ now → now ≤ now2 →
  body (POST parseFloat now now2 request up s).1.1 = RateLimitedBody msg r →
  ∃ e, s !! getRateLimitKey request = Some e ∧
       r ≤ 1 ∧ (r = 1 ↔ now2 < resetTime e).
Proof.
  intros Hreach Ht Hnow2.
  destruct (allowed (checkRateLimit now (getRateLimitKey request) s).1)
    eqn:Hallowed.
  - rewrite (POST_allowed _ _ _ _ _ Hallowed). cbn zeta. by destruct up.
  - rewrite (POST_denied _ _ _ _ _ Hallowed). cbn [fst body].
    intros [= _ <-].
    apply WindowProofs.denied_iff in Hallowed as (e & Hkey & Hlive & Hfull).
    unfold RATE_LIMIT in Hfull.
    rewrite (check_denied _ _ _ _ Hkey Hlive Hfull). cbn [fst res_resetTime].
    exists e. split; [done|].
    pose proof (WindowProofs.reachable_reset_bound t s Hreach _ _ Hkey).
    pose proof (ceil_div_1000_spec (resetTime e - now2)). lia.
Qed.

End WithParseFloat.

(** The store moves on during the awaits: the first request of a sender is
    answered with "9" remaining, and a second request checked before that
    answer goes out has already raised the sender's count to 2. *)
Example store_moves_on_during_the_awaits :
  let first :=
    POST (fun _ => 0) 0 0 (request_from "1.2.3.4") (Completed no_text) ∅ in
  header_of (str "X-RateLimit-Remaining") (response_headers first.1.1)
  = Some (str "9") ∧
  (checkRateLimit 1 (str "1.2.3.4") first.1.2).2 !! str "1.2.3.4"
  = Some (Entry 2 1000).
Proof. vm_compute. split; reflexivity. Qed.

Lemma retry_after_at_most_one_witness :
  ∃ e, (run ((fun t => (str "1.2.3.4", t)) <$> replicate 10 0) ∅).2
         !! getRateLimitKey (request_from "1.2.3.4") = Some e ∧
       1 ≤ 1 ∧ (1 = 1 ↔ 600 < resetTime e).
Proof.
  apply (retry_after_at_most_one (fun _ => 0) 0 500 600
           (request_from "1.2.3.4") Rejected _
           (str "Rate limit exceeded. Too many requests.") 1).
  - refine (WindowProofs.run_reachable
              ((fun t => (str "1.2.3.4", t)) <$> replicate 10 0) 0 ∅
              (reach_empty 0) _).
    simpl. repeat split; lia.
  - simpl. lia.
  - lia.
  - vm_compute. reflexivity.
Defined.

Lemma rate_limited_post_is_inert_witness :
  (POST (fun _ => 0) 500 600 (request_from "1.2.3.4") Rejected
     {[ str "1.2.3.4" := Entry 10 1000 ]}).1.2
  = {[ str "1.2.3.4" := Entry 10 1000 ]} ∧
  (POST (fun _ => 0) 500 600 (request_from "1.2.3.4") Rejected
     {[ str "1.2.3.4" := Entry 10 1000 ]}).2 = [] ∧
  ∀ up', POST (fun _ => 0) 500 600 (request_from "1.2.3.4") up'
           {[ str "1.2.3.4" := Entry 10 1000 ]}
         = POST (fun _ => 0) 500 600 (request_from "1.2.3.4") Rejected
             {[ str "1.2.3.4" := Entry 10 1000 ]}.
Proof.
  apply (rate_limited_post_is_inert (fun _ => 0) 500 600
           (request_from "1.2.3.4") Rejected
           {[ str "1.2.3.4" := Entry 10 1000 ]}).
  vm_compute. reflexivity.
Defined.

End RouteProofs.

(** * Further properties of the feedback parsing *)

Module LineProofs.
Import Feedback HeaderProofs.

Lemma head_rev {A} (l : list A) : head (rev l) = last l.
Proof. rewrite <- (rev_involutive l) at 2. symmetry. apply last_rev. Qed.

Lemma trimStart_id s :
  (∀ c, head s = Some c → is_space c = false) → trimStart s = s.
Proof.
  destruct s as [|c s]; [done|]. simpl. intros Hc.
  by rewrite (Hc c eq_refl).
Qed.

Lemma trim_id s :
  (∀ c, head s = Some c → is_space c = false) →
  (∀ c, last s = Some c → is_space c = false) →
  trim s = s.
Proof.
  intros Hhead Hlast. unfold trim, trimEnd.
  rewrite (trimStart_id s Hhead).
  rewrite trimStart_id; [apply rev_involutive|].
  intros c. rewrite head_rev. apply Hlast.
Qed.

(** No piece of a split holds the separator. *)
Lemma split_pieces sep s : Forall (Forall (fun c => c ≠ sep)) (split sep s).
Proof.
  induction s as [|c s IH]; simpl; [by repeat constructor|].
  destruct (N.eqb_spec c sep) as [->|Hne]; [by constructor|].
  destruct (split sep s) as [|piece pieces]; [by repeat constructor|].
  apply Forall_cons in IH as [Hpiece Hpieces].
  constructor; [by constructor | done].
Qed.

(** Splitting a text at a separator that the piece in front does not hold
    gives that piece and the split of the rest. *)
Lemma split_app sep piece rest :
  Forall (fun c => c ≠ sep) piece →
  split sep (piece ++ sep :: rest) = piece :: split sep rest.
Proof.
  induction 1 as [|c piece Hc _ IH]; simpl.
  - by rewrite N.eqb_refl.
  - apply N.eqb_neq in Hc. by rewrite Hc, IH.
Qed.

Lemma split_one sep piece :
  Forall (fun c => c ≠ sep) piece → split sep piece = [piece].
Proof.
  induction 1 as [|c piece Hc _ IH]; simpl; [done|].
  apply N.eqb_neq in Hc. by rewrite Hc, IH.
Qed.

Lemma split_join_lines lines :
  lines ≠ [] → Forall (Forall (fun c => c ≠ newline)) lines →
  split newline (join_lines lines) = lines.
Proof.
  intros Hne Hlines. induction Hlines as [|line lines Hline Hlines IH]; [done|].
  destruct lines as [|line' lines].
  - simpl. by apply split_one.
  - change (join_lines (line :: line' :: lines))
      with (line ++ newline :: join_lines (line' :: lines)).
    rewrite split_app by done. f_equal. by apply IH.
Qed.

Lemma keep_line_clean line : clean_line line → keep_line line = true.
Proof.
  intros (Hne & _ & _ & _ & Hnum). unfold keep_line. rewrite Hnum.
  by destruct line.
Qed.

Lemma filter_all {A} (f : A → bool) l :
  Forall (fun x => f x = true) l → List.filter f l = l.
Proof. induction 1 as [|x l Hx _ IH]; simpl; [done|]. by rewrite Hx, IH. Qed.

Lemma map_id_on {A} (f : A → A) l :
  Forall (fun x => f x = x) l → List.map f l = l.
Proof. induction 1 as [|x l Hx _ IH]; simpl; [done|]. by rewrite Hx, IH. Qed.

Lemma parse_lines_clean text : Forall clean_line (parseTextToArray text).
Proof.
  unfold parseTextToArray. apply Forall_take.
  apply Forall_forall. intros line Hin.
  apply list_elem_of_In, filter_In in Hin as [Hin Hkeep].
  apply in_map_iff in Hin as (piece & <- & Hpiece).
  unfold keep_line in Hkeep. apply andb_true_iff in Hkeep as [Hlen Hnum].
  repeat split.
  - intros Hnil. by rewrite Hnil in Hlen.
  - apply trim_head.
  - apply trim_last.
  - apply trim_Forall.
    pose proof (split_pieces newline text) as Hall.
    rewrite Forall_forall in Hall. apply Hall. by apply list_elem_of_In.
  - by apply negb_true_iff.
Qed.

Lemma parse_join_clean lines :
  Forall clean_line lines → parseTextToArray (join_lines lines) = take 3 lines.
Proof.
  intros Hclean. destruct lines as [|line lines]; [done|].
  unfold parseTextToArray. rewrite split_join_lines; [| done |].
  - rewrite map_id_on, filter_all; [done | |].
    + eapply Forall_impl; [exact Hclean|]. apply keep_line_clean.
    + eapply Forall_impl; [exact Hclean|].
      intros l (_ & Hh & Hl & _). by apply trim_id.
  - eapply Forall_impl; [exact Hclean|]. by intros l (_ & _ & _ & Hnl & _).
Qed.

(** X17: every entry that [parseTextToArray] returns is a clean line: not
    empty, without white space at its ends, without a line break, and not
    starting with a numbering such as "1. ". *)
Theorem parsed_lines_are_clean text :
  Forall clean_line (parseTextToArray text).
Proof. apply parse_lines_clean. Qed.

(** X18: an answer that consists of clean lines, one per line, is read back
    as it was written, cut after the third line. *)
Theorem parse_reads_back_clean_lines lines :
  Forall clean_line lines →
  parseTextToArray (join_lines lines) = take 3 lines.
Proof. apply parse_join_clean. Qed.

Lemma parse_reads_back_clean_lines_witness :
  parseTextToArray
    (join_lines [str "clear name"; str "2nd idea"; str "fun"; str "more"])
  = take 3 [str "clear name"; str "2nd idea"; str "fun"; str "more"].
Proof.
  apply (parse_reads_back_clean_lines
           [str "clear name"; str "2nd idea"; str "fun"; str "more"]).
  repeat (apply Forall_cons; split); try apply List.Forall_nil.
  all: unfold clean_line.
  all: split; [intros H; vm_compute in H; discriminate H|].
  all: split; [intros c Hc; vm_compute in Hc; injection Hc as <-; reflexivity|].
  all: split; [intros c Hc; vm_compute in Hc; injection Hc as <-; reflexivity|].
  all: split; [|reflexivity].
  all: vm_compute.
  all: repeat (apply List.Forall_cons; [intros H; discriminate H|]).
  all: apply List.Forall_nil.
Defined.

End LineProofs.

(** * Properties of the responses *)

Module ResponseProofs.
Import RateLimit Feedback Route.

Lemma fallback_entries_nonempty l canned :
  Forall (fun x => x ≠ []) l → str canned ≠ [] →
  Forall (fun x => x ≠ []) (fallback_if_empty l canned).
Proof.
  intros Hl Hc. unfold fallback_if_empty.
  destruct l; simpl; [by repeat constructor | done].
Qed.

Lemma parsed_entries_nonempty text :
  Forall (fun x => x ≠ []) (parseTextToArray text).
Proof.
  eapply Forall_impl; [apply LineProofs.parse_lines_clean|].
  by intros line (Hne & _).
Qed.

Lemma build_feedback_nonempty s i r o :
  let fb := build_feedback s i r o in
  Forall (fun x => x ≠ []) (strengths fb) ∧
  Forall (fun x => x ≠ []) (improvements fb) ∧
  Forall (fun x => x ≠ []) (recommendations fb) ∧
  overallFeedback fb ≠ [].
Proof.
  cbn [build_feedback strengths improvements recommendations overallFeedback].
  repeat split;
    try (apply fallback_entries_nonempty;
         [apply parsed_entries_nonempty
         | intros H; vm_compute in H; discriminate H]).
  unfold or_else. destruct (trim (text_or_empty o)); [|done].
  simpl. intros H. vm_compute in H. discriminate H.
Qed.

Section WithParseFloat.
Context {number : Type} (parseFloat : jsstring → number).

(** X19: what a 200 carries.  The body of a response with status 200 is
    the scores with a feedback whose three lists have between one and three
    entries, none of them an empty string, and whose overall feedback is not
    empty. *)
Theorem success_body_is_filled now now2 request up (s : store) :
  status (POST parseFloat now now2 request up s).1.1 = 200 →
  ∃ sc fb,
    body (POST parseFloat now now2 request up s).1.1 = ScoreBody sc fb ∧
    Forall (fun l => (1 ≤ length l ≤ 3)%nat ∧ Forall (fun x => x ≠ []) l)
      [strengths fb; improvements fb; recommendations fb] ∧
    overallFeedback fb ≠ [].
Proof.
  destruct (allowed (checkRateLimit now (getRateLimitKey request) s).1)
    eqn:Hallowed.
  - rewrite (RouteProofs.POST_allowed _ _ _ _ _ _ Hallowed). cbn zeta.
    destruct up as [g|]; cbn [fst status body]; [|done].
    intros _. eexists _, _. split; [done|].
    destruct (build_feedback_nonempty (strengthsText g) (improvementsText g)
                (recommendationsText g) (overallText g))
      as (H1 & H2 & H3 & H4).
    split; [|exact H4].
    cbn [build_feedback strengths improvements recommendations] in *.
    repeat (apply Forall_cons; split); try apply Forall_nil; try done;
      split; try done;
      apply FeedbackProofs.fallback_if_empty_length,
        FeedbackProofs.parseTextToArray_length.
  - rewrite (RouteProofs.POST_denied _ _ _ _ _ _ Hallowed). done.
Qed.

End WithParseFloat.

Lemma success_body_is_filled_witness :
  ∃ sc fb,
    body (POST (fun _ => 0) 0 0 (request_from "1.2.3.4")
            (Completed no_text) ∅).1.1 = ScoreBody sc fb ∧
    Forall (fun l => (1 ≤ length l ≤ 3)%nat ∧ Forall (fun x => x ≠ []) l)
      [strengths fb; improvements fb; recommendations fb] ∧
    overallFeedback fb ≠ [].
Proof.
  apply (success_body_is_filled (fun _ => 0) 0 0 (request_from "1.2.3.4")
           (Completed no_text) ∅).
  vm_compute. reflexivity.
Defined.

End ResponseProofs.

(** * Further properties of the history helpers *)

Module StorageProofs.
Import History Page.

Lemma code_points_length s : (length (code_points s) ≤ length s)%nat.
Proof.
  assert (∀ n s, (length s ≤ n → length (code_points s) ≤ length s)%nat)
    as Hgen.
  { induction n as [|n IH]; intros t Hlen.
    - destruct t; simpl in *; lia.
    - destruct t as [|c [|d rest]]; simpl in *; [lia..|].
      destruct (is_high_surrogate c && is_low_surrogate d); simpl.
      + specialize (IH rest ltac:(lia)). lia.
      + specialize (IH (d :: rest) ltac:(simpl; lia)). simpl in IH. lia. }
  by apply (Hgen (length s)).
Qed.

Section WithJSON.
Context {number : Type} `{!JSON number} `{!StorageQuota}.

Lemma get_after_set key value b : getItem key (setItem key value b) = Some value.
Proof. unfold getItem, setItem. simpl. apply lookup_insert_eq. Qed.

Lemma get_after_set_other key key' value b :
  key ≠ key' → getItem key' (setItem key value b) = getItem key' b.
Proof. intros Hne. unfold getItem, setItem. simpl. by apply lookup_insert_ne. Qed.

Lemma item_or_stored text otherwise :
  text ≠ [] → item_or (Some text) otherwise = text.
Proof. by destruct text. Qed.

(** The three ways a save can end. *)
Lemma save_cases (analysis : jsvalue number) b :
  (∃ e, saveToLocalStorage analysis b
        = console_error "Failed to save to localStorage:" e b) ∨
  (∃ rest, (length rest ≤ 9)%nat ∧
     saveToLocalStorage analysis b
     = setItem STORAGE_KEY (JSON_stringify (JArr (analysis :: rest))) b).
Proof.
  unfold saveToLocalStorage, localStorage_setItem.
  destruct (JSON_parse (item_or (getItem STORAGE_KEY b) (str "[]")))
    as [existing|e]; [|left; by exists e].
  destruct existing as [| | |t|items|]; simpl;
    try (left; by exists TypeError).
  - destruct (write_accepted _ _ _);
      [|left; by exists QuotaExceededError].
    right. exists (JStr <$> code_points (take 9 t)). split; [|done].
    rewrite length_fmap.
    pose proof (code_points_length (take 9 t)).
    rewrite length_take in *. lia.
  - destruct (write_accepted _ _ _);
      [|left; by exists QuotaExceededError].
    right. exists (take 9 items). split; [|done].
    rewrite length_take. lia.
Qed.

(** X20: whatever the storage holds, a save either stores nothing and logs
    one error, or stores a list that starts with the new analysis and has
    at most ten entries; the other keys of the storage are never touched. *)
Theorem save_keeps_history_bounded (analysis : jsvalue number) b :
  (∀ key, key ≠ STORAGE_KEY →
          getItem key (saveToLocalStorage analysis b) = getItem key b) ∧
  ((localStorage (saveToLocalStorage analysis b) = localStorage b ∧
    ∃ e, console (saveToLocalStorage analysis b)
         = console b ++ [(str "Failed to save to localStorage:", e)]) ∨
   (∃ rest, (length (analysis :: rest) ≤ 10)%nat ∧
      getItem STORAGE_KEY (saveToLocalStorage analysis b)
      = Some (JSON_stringify (JArr (analysis :: rest))) ∧
      console (saveToLocalStorage analysis b) = console b)).
Proof.
  destruct (save_cases analysis b) as [[e ->] | (rest & Hlen & ->)].
  - split; [done|]. left. split; [done|]. by exists e.
  - split; [intros key Hkey; by apply get_after_set_other|].
    right. exists rest. rewrite get_after_set. simpl. split; [lia | done].
Qed.

(** X21: a save onto a history it cannot use is lost.  When the stored
    text does not parse, or parses to something that is neither an array nor
    a string, nothing is stored: the storage stays as it is and the failure
    is logged. *)
Theorem save_on_unusable_history_stores_nothing
    (analysis : jsvalue number) b :
  (∀ e, JSON_parse (item_or (getItem STORAGE_KEY b) (str "[]")) = Throw e →
        saveToLocalStorage analysis b
        = console_error "Failed to save to localStorage:" e b) ∧
  (∀ v, JSON_parse (item_or (getItem STORAGE_KEY b) (str "[]")) = Normal v →
        (∀ items, v ≠ JArr items) → (∀ t, v ≠ JStr t) →
        saveToLocalStorage analysis b
        = console_error "Failed to save to localStorage:" TypeError b).
Proof.
  unfold saveToLocalStorage. split.
  - by intros e ->.
  - intros v -> Harr Hstr. destruct v; simpl; try done.
    + by destruct (Hstr s).
    + by destruct (Harr items).
Qed.


Lemma filter_out_id_null id (items : list (jsvalue number)) :
  Exists (fun item => is_null item = true) items →
  filter_out_id id items = Throw TypeError.
Proof.
  induction 1 as [item items Hitem | item items _ IH].
  - by destruct item.
  - cbn [filter_out_id]. rewrite IH. by destruct item.
Qed.

Lemma get_of_parsed b (v : jsvalue number) :
  JSON_parse (item_or (getItem STORAGE_KEY b) (str "[]")) = Normal v →
  getFromLocalStorage b = (v, b).
Proof. unfold getFromLocalStorage. by intros ->. Qed.



(** X23: one [null] in the stored array blocks every delete: the filter
    throws on it, so the storage is left as it is and the failure is
    logged, whichever id was to be deleted. *)
Theorem delete_fails_on_null_entry id b (items : list (jsvalue number)) :
  JSON_parse (item_or (getItem STORAGE_KEY b) (str "[]"))
  = Normal (JArr items) →
  Exists (fun item => is_null item = true) items →
  deleteFromLocalStorage id b
  = console_error "Failed to delete from localStorage:" TypeError b.
Proof.
  intros Hparse Hnull. unfold deleteFromLocalStorage.
  rewrite (get_of_parsed b _ Hparse). simpl.
  by rewrite (filter_out_id_null id items Hnull).
Qed.


(** X25: what was saved is read back.  When the history is an array, the
    storage accepts the write of the save, and the text written parses back
    to what was written, the read that follows the save returns the new
    analysis in front of the first nine old entries. *)
Theorem saved_analysis_is_read_back (analysis : jsvalue number) b existing :
  JSON_parse (item_or (getItem STORAGE_KEY b) (str "[]"))
  = Normal (JArr existing) →
  write_accepted (localStorage b) STORAGE_KEY
    (JSON_stringify (JArr (analysis :: take 9 existing))) = true →
  JSON_stringify (JArr (analysis :: take 9 existing)) ≠ [] →
  JSON_parse (JSON_stringify (JArr (analysis :: take 9 existing)))
  = Normal (JArr (analysis :: take 9 existing)) →
  (getFromLocalStorage (saveToLocalStorage analysis b)).1
  = JArr (analysis :: take 9 existing).
Proof.
  intros Hparse Haccepted Hne Hback.
  rewrite (HistoryProofs.save_on_array _ _ _ Hparse), Haccepted.
  unfold getFromLocalStorage. rewrite get_after_set.
  by rewrite (item_or_stored _ _ Hne), Hback.
Qed.


End WithJSON.

Import MiniJSON.

Lemma save_on_unusable_history_stores_nothing_witness :
  saveToLocalStorage new_analysis browser_with_broken_history
  = console_error "Failed to save to localStorage:" SyntaxError
      browser_with_broken_history.
Proof.
  apply (proj1 (save_on_unusable_history_stores_nothing new_analysis
                  browser_with_broken_history) SyntaxError).
  vm_compute. reflexivity.
Defined.


Lemma delete_fails_on_null_entry_witness :
  deleteFromLocalStorage (str "7") browser_with_null_entry
  = console_error "Failed to delete from localStorage:" TypeError
      browser_with_null_entry.
Proof.
  apply (delete_fails_on_null_entry (str "7") browser_with_null_entry
           (JNull :: short_history)).
  - vm_compute. reflexivity.
  - left. reflexivity.
Defined.


Lemma saved_analysis_is_read_back_witness :
  (getFromLocalStorage
     (saveToLocalStorage new_analysis browser_with_long_history)).1
  = JArr (new_analysis :: take 9 long_history).
Proof.
  apply (saved_analysis_is_read_back new_analysis browser_with_long_history
           long_history).
  - vm_compute. reflexivity.
  - vm_compute. reflexivity.
  - intros H. vm_compute in H. discriminate H.
  - vm_compute. reflexivity.
Defined.


End StorageProofs.

(** * Properties of the form checks, the retry countdown and the theme
      switch *)

Module PageProofs.
Import RateLimit RateLimitProofs Route Page.

(** ** The retry countdown *)

Lemma effect_positive n e :
  0 < n →
  countdown_effect {| retryCountdown := Some n; error := e |}
  = Some {| retryCountdown := Some (n - 1); error := e |}.
Proof.
  intros Hn. unfold countdown_effect. simpl.
  destruct (Z.eqb_spec n 0); [lia|]. simpl.
  destruct (Z.gtb_spec n 0); [done | lia].
Qed.

Lemma effect_negative n e :
  n < 0 → countdown_effect {| retryCountdown := Some n; error := e |} = None.
Proof.
  intros Hn. unfold countdown_effect. simpl.
  destruct (Z.eqb_spec n 0); [lia|]. simpl.
  destruct (Z.gtb_spec n 0); [lia | done].
Qed.

Lemma after_effects_counting k : ∀ n e,
  Z.of_nat k ≤ n →
  after_effects k {| retryCountdown := Some n; error := e |}
  = {| retryCountdown := Some (n - Z.of_nat k); error := e |}.
Proof.
  induction k as [|k IH]; intros n e Hk.
  - simpl. do 2 f_equal. lia.
  - cbn [after_effects]. rewrite effect_positive by lia.
    rewrite IH by lia. do 2 f_equal. lia.
Qed.

Lemma after_effects_cleared k :
  after_effects k {| retryCountdown := None; error := None |}
  = {| retryCountdown := None; error := None |}.
Proof. by destruct k. Qed.

(** X27: the countdown clears itself exactly when it starts at zero or
    above.  Started at a whole number [n >= 0] it shows [n - k] after
    [k <= n] runs of the effect, is cleared (together with the error) by run
    [n + 1] and stays cleared; started below zero it is never touched, so
    [retryCountdown] does not become [null] again on its own. *)
Theorem countdown_clears_iff_not_negative n e :
  (0 ≤ n →
   (∀ k, Z.of_nat k ≤ n →
         after_effects k {| retryCountdown := Some n; error := e |}
         = {| retryCountdown := Some (n - Z.of_nat k); error := e |}) ∧
   (∀ k, n < Z.of_nat k →
         after_effects k {| retryCountdown := Some n; error := e |}
         = {| retryCountdown := None; error := None |})) ∧
  (n < 0 →
   ∀ k, after_effects k {| retryCountdown := Some n; error := e |}
        = {| retryCountdown := Some n; error := e |}).
Proof.
  split.
  - intros Hn. split; [intros k; apply after_effects_counting|].
    revert e. induction n as [n IH] using (well_founded_induction
      (Z.lt_wf 0)). intros e k Hk.
    destruct k as [|k]; [lia|]. cbn [after_effects].
    destruct (Z.eq_dec n 0) as [->|Hpos].
    + unfold countdown_effect. simpl. apply after_effects_cleared.
    + rewrite effect_positive by lia. apply IH; lia.
  - intros Hn k. destruct k as [|k]; [done|].
    cbn [after_effects]. by rewrite effect_negative.
Qed.

Lemma countdown_clears_iff_not_negative_witness :
  (∀ k, Z.of_nat k ≤ 60 →
        after_effects k {| retryCountdown := Some 60; error := None |}
        = {| retryCountdown := Some (60 - Z.of_nat k); error := None |}) ∧
  (∀ k, 60 < Z.of_nat k →
        after_effects k {| retryCountdown := Some 60; error := None |}
        = {| retryCountdown := None; error := None |}).
Proof.
  apply (proj1 (countdown_clears_iff_not_negative 60 None)). lia.
Defined.

(** ** From the server's [retryAfter] to the client's countdown *)

Section WithParseFloat.
Context {number : Type} (parseFloat : jsstring → number).

(** X28: how long the page makes a denied user wait.  With a clock that
    does not run backwards and a second reading still inside the window,
    the countdown starts at one second, except when the second reading is
    the reset time itself: the server then sends [retryAfter = 0], which the
    page takes for a missing value and replaces by sixty seconds. *)
Theorem client_wait_after_429 t now now2 request up (s : store) e msg r :
  reachable t s → t ≤ now → now ≤ now2 →
  s !! getRateLimitKey request = Some e →
  now2 ≤ resetTime e →
  body (POST parseFloat now now2 request up s).1.1 = RateLimitedBody msg r →
  retry_start (Some r) = if decide (now2 = resetTime e) then 60 else 1.
Proof.
  intros Hreach Ht Hnow2 Hkey Hin.
  destruct (allowed (checkRateLimit now (getRateLimitKey request) s).1)
    eqn:Hallowed.
  - rewrite (RouteProofs.POST_allowed _ _ _ _ _ _ Hallowed). cbn zeta.
    by destruct up.
  - rewrite (RouteProofs.POST_denied _ _ _ _ _ _ Hallowed). cbn [fst body].
    intros [= _ <-].
    apply WindowProofs.denied_iff in Hallowed as (e' & Hkey' & Hlive & Hfull).
    rewrite Hkey in Hkey'. injection Hkey' as <-.
    unfold RATE_LIMIT in Hfull.
    rewrite (check_denied _ _ _ _ Hkey Hlive Hfull). cbn [fst res_resetTime].
    pose proof (WindowProofs.reachable_reset_bound t s Hreach _ _ Hkey).
    pose proof (RouteProofs.ceil_div_1000_spec (resetTime e - now2)).
    unfold retry_start.
    destruct (Z.eqb_spec (ceil_div_1000 (resetTime e - now2)) 0);
      case_decide; lia.
Qed.

End WithParseFloat.

Lemma client_wait_after_429_witness :
  retry_start (Some 0) = if decide (1000 = resetTime (Entry 10 1000))
                         then 60 else 1.
Proof.
  apply (client_wait_after_429 (fun _ => 0) 0 500 1000
           (request_from "1.2.3.4") Rejected
           (run ((fun t => (str "1.2.3.4", t)) <$> replicate 10 0) ∅).2
           (Entry 10 1000)
           (str "Rate limit exceeded. Too many requests.") 0).
  - refine (WindowProofs.run_reachable
              ((fun t => (str "1.2.3.4", t)) <$> replicate 10 0) 0 ∅
              (reach_empty 0) _).
    simpl. repeat split; lia.
  - lia.
  - lia.
  - vm_compute. reflexivity.
  - simpl. lia.
  - vm_compute. reflexivity.
Defined.

(** ** The form check *)

(** X29: [handleSubmit] refuses a form exactly when the project name or
    the description is blank, that is empty or white space only. *)
Theorem submit_refused_iff_blank projectName projectDescription :
  submit_refused projectName projectDescription = true
  ↔ Forall (fun c => is_space c = true) projectName ∨
    Forall (fun c => is_space c = true) projectDescription.
Proof.
  unfold submit_refused.
  rewrite orb_true_iff, <- !HeaderProofs.trim_nil.
  assert (∀ s : jsstring, negb (truthy s) = true ↔ s = []) as Hfalsy
    by (intros [|c s]; simpl; split; done).
  by rewrite !Hfalsy.
Qed.

(** ** The theme switch *)

Lemma light_is_not_dark : Some (str "light") ≠ Some (str "dark").
Proof. intros H. vm_compute in H. discriminate H. Qed.

(** X30: a click on the switch sets "light" when the theme is "dark" and
    "dark" in every other case, the theme named by the tooltip.  So two
    clicks bring back a theme exactly when it is "dark" or "light"; from any
    other theme the switch only alternates between these two. *)
Theorem toggle_alternates (theme : option jsstring) :
  switch_title theme = str "Switch to " ++ toggleTheme theme ++ str " mode" ∧
  (toggleTheme theme = str "light" ∨ toggleTheme theme = str "dark") ∧
  (Some (toggleTheme (Some (toggleTheme theme))) = theme
   ↔ theme = Some (str "dark") ∨ theme = Some (str "light")).
Proof.
  unfold switch_title, toggleTheme.
  split; [done|].
  destruct (decide (theme = Some (str "dark"))) as [->|Hnd].
  - split; [by left|].
    rewrite decide_False by apply light_is_not_dark.
    split; [by left | done].
  - split; [by right|].
    rewrite decide_True by done.
    split.
    + intros <-. by right.
    + intros [-> | ->]; done.
Qed.

End PageProofs.
